(** * gonic jukebox: a shallow embedding of [jukebox.go] and [player.go]

    The engine of package [jukebox] is embedded as state-passing functions
    over a record that holds the fields of the Go struct [Jukebox] together
    with the part of the Go heap the engine touches (the [PlaylistItem]
    objects its slice points to).  Machine integers are values of [Z] with
    the wrap-around of 64-bit Go written out; [float64] is IEEE-754 binary64
    as specified by [SpecFloat]. *)

From Stdlib Require Import ZArith Lia Bool String List.
From Stdlib Require Import Floats.SpecFloat.
From stdpp Require Import base list.

Local Open Scope Z_scope.

(** ** Go's machine arithmetic (64-bit platform: [int] is [int64]) *)

Module Go.

Definition two64 : Z := 2 ^ 64.
Definition two63 : Z := 2 ^ 63.

(** [uint64(x)]: reduction modulo 2^64. *)
Definition uint64 (x : Z) : Z := x mod two64.

(** [int64(x)] and [int(x)]: the two's complement reading of the low 64 bits. *)
Definition int64 (x : Z) : Z := (x + two63) mod two64 - two63.

Definition is_int64 (x : Z) : Prop := - two63 <= x < two63.
Definition is_uint64 (x : Z) : Prop := 0 <= x < two64.

(** ** [float64]: binary64 values and the three operations [Seconds] uses *)

Definition prec : Z := 53.
Definition emax : Z := 1024.

Definition float64 : Type := spec_float.

(** [float64(n)] for an integer [n], rounding to nearest even. *)
Definition float64_of_int (n : Z) : float64 := binary_normalize prec emax n 0 false.

Definition fadd : float64 -> float64 -> float64 := SFadd prec emax.
Definition fdiv : float64 -> float64 -> float64 := SFdiv prec emax.

(** [int(f)]: the fraction is discarded (truncation towards zero).  Go
    leaves the result open when the value does not fit; amd64 gives the
    smallest [int64], which is what is written here for infinities and
    NaN. [Seconds] never produces them. *)
Definition int_of_float64 (f : float64) : Z :=
  match f with
  | S754_zero _ => 0
  | S754_finite s m e =>
      let a := match e with
               | Zneg k => Z.pos m / 2 ^ Z.pos k
               | _ => Z.pos m * 2 ^ e
               end in
      int64 (if s then - a else a)
  | _ => - two63
  end.

(** ** [time.Duration]: a count of nanoseconds in an [int64] *)

Definition Duration : Type := Z.

Definition Second : Duration := 1000000000.

(** [time.Duration(n) * time.Second], with the overflow of [int64]. *)
Definition seconds_duration (n : Z) : Duration := int64 (int64 n * Second).

(** [func (d Duration) Seconds() float64]:
    [sec := d / Second; nsec := d % Second;
     return float64(sec) + float64(nsec)/1e9].
    Go's [/] and [%] on integers truncate towards zero. *)
Definition Seconds (d : Duration) : float64 :=
  let sec := Z.quot d Second in
  let nsec := Z.rem d Second in
  fadd (float64_of_int sec) (fdiv (float64_of_int nsec) (float64_of_int 1000000000)).

End Go.

(** ** [player.go]: the audio format and the [Player] interface *)

Definition SampleRate : Z := 48000.
Definition BitsPerSample : Z := 16.
Definition Channels : Z := 2.
Definition BitRate : Z := SampleRate * BitsPerSample * Channels.

(** The eight methods of [type Player interface], state-passing: a method
    that changes the player returns the changed player.  [Feed n] is not a
    method of the interface: it stands for the player's own read loop
    taking [n] more bytes from the reader it was built on. *)
Class Player (P : Type) : Type := {
  Pause : P -> P;
  Play : P -> P;
  IsPlaying : P -> bool;
  Reset : P -> P;
  Volume : P -> Go.float64;
  SetVolume : Go.float64 -> P -> P;
  UnplayedBufferSize : P -> Z;
  Close : P -> P;
  Feed : Z -> P -> P
}.

(** [mockPlayer] of the package's test file. *)
Record mockPlayer : Type := MockPlayer {
  mock_playing : bool;
  mock_gain : Go.float64
}.

#[export] Instance mockPlayer_Player : Player mockPlayer := {|
  Pause m := MockPlayer false (mock_gain m);
  Play m := MockPlayer true (mock_gain m);
  IsPlaying m := mock_playing m;
  Reset m := MockPlayer false (mock_gain m);
  Volume m := mock_gain m;
  SetVolume gain m := MockPlayer (mock_playing m) gain;
  UnplayedBufferSize _ := 0;
  Close m := m;
  Feed _ m := m
|}.

(** The mock of [newJukebox]: [&mockPlayer{..., gain: 1}]. *)
Definition newMock : mockPlayer := MockPlayer false (Go.float64_of_int 1).

(** Modelled from the spec: the player over an audio sink (the repository
    builds it with the oto library, which is not part of it).  Section 6:
    "[UnplayedBufferSize] returns the byte count queued to hardware but not
    yet played; [Reset] discards it"; the player "owns its own read loop
    pulling from the pipe". *)
Record sinkPlayer : Type := SinkPlayer {
  sink_playing : bool;
  sink_gain : Go.float64;
  sink_queued : Z
}.

#[export] Instance sinkPlayer_Player : Player sinkPlayer := {|
  Pause s := SinkPlayer false (sink_gain s) (sink_queued s);
  Play s := SinkPlayer true (sink_gain s) (sink_queued s);
  IsPlaying s := sink_playing s;
  Reset s := SinkPlayer false (sink_gain s) 0;
  Volume s := sink_gain s;
  SetVolume gain s := SinkPlayer (sink_playing s) gain (sink_queued s);
  UnplayedBufferSize s := sink_queued s;
  Close s := s;
  Feed n s := SinkPlayer (sink_playing s) (sink_gain s) (sink_queued s + n)
|}.

Definition newSink : sinkPlayer := SinkPlayer false (Go.float64_of_int 1) 0.

(** ** The counting reader on the pipe *)

(** Modelled from the spec: [countrw.CountReader], whose source is not
    among the files.  Section 4.1: "[Read] ... increments the byte counter
    by [n] on success", "[Count() -> uint64]: returns the counter",
    "[Reset()]: ... discards any buffered, unread bytes and zeros the
    counter". *)
Module CountReader.
Record t : Type := Make { count : Z }.
Definition NewCountReader : t := Make 0.
Definition Count (c : t) : Z := count c.
Definition Reset (c : t) : t := Make 0.
Definition Read (n : Z) (c : t) : t := Make (Go.uint64 (count c + n)).
End CountReader.

(** ** Playlist items *)

(** [type PlaylistItem struct { id int; path string; seek time.Duration }] *)
Record PlaylistItem : Type := mkItem {
  item_id : Z;
  item_path : string;
  item_seek : Go.Duration
}.

(** [func NewPlaylistItem(id int, path string) *PlaylistItem]: the composite
    literal leaves [seek] at its zero value. *)
Definition NewPlaylistItem (id : Z) (path : string) : PlaylistItem :=
  mkItem id path 0.

Definition ID (p : PlaylistItem) : Z := item_id p.
Definition Path (p : PlaylistItem) : string := item_path p.

Definition set_seek (d : Go.Duration) (p : PlaylistItem) : PlaylistItem :=
  mkItem (item_id p) (item_path p) d.

#[export] Instance PlaylistItem_inhabited : Inhabited PlaylistItem :=
  populate (mkItem 0 EmptyString 0).

(** A [*PlaylistItem] is the index of its object in the store of allocated
    items.  Objects are never freed, so a pointer handed out by an
    allocation stays valid; [nil] entries are not modelled (every item of
    the repository comes from [NewPlaylistItem]). *)
Abbreviation ptr := nat (only parsing).

(** [func inbounds(length, i int) bool] *)
Definition inbounds (length i : Z) : bool :=
  (0 <? length) && (0 <=? i) && (i <? length).

(** [len] of a slice. *)
Definition len {A : Type} (l : list A) : Z := Z.of_nat (length l).

(** The control channels: what has been sent on [next] and [cancel], and
    the closing of [quit]. *)
Inductive Signal : Type := next | cancel | quit.

(** [var ErrOOB = fmt.Errorf("out of bounds")], and what a transcoder may
    return. *)
Inductive error : Type :=
| ErrOOB
| ErrTranscode (msg : string).

(** [transcode.WithSeek(transcode.PCM16le, item.seek)]: the output profile
    of a decode session, of which the engine fixes the seek only. *)
Record Profile : Type := WithSeek_PCM16le { profile_seek : Go.Duration }.

(** [transcode.Transcoder]: [Transcode(ctx, profile, in, out) error], seen
    from the engine: the error it returns (the bytes go to the pipe, where
    the player's reads count them).  A context is named by a number. *)
Definition Transcoder : Type := nat -> Profile -> string -> option error.

(** [type Status struct] *)
Record Status : Type := mkStatus {
  CurrentIndex : Z;
  Playing : bool;
  Gain : Go.float64;
  Position : Z
}.

(** ** The engine *)

Section Engine.

Context {P : Type} `{Player P}.

(** [type Jukebox struct], without the transcoder (an argument of the
    decode session here), the writing end of the pipe and the lock (the
    calls run one after the other).  Two fields are not of the struct: the
    store [j_mem] that the pointers of [j_items] point into, and what
    [log.Printf] has printed. *)
Record Jukebox : Type := mkJukebox {
  j_pcmr : CountReader.t;
  j_player : P;
  j_sent : list Signal;
  j_i : Z;
  j_items : list ptr;
  j_mem : list PlaylistItem;
  j_log : list error
}.

Definition set_pcmr (c : CountReader.t) (j : Jukebox) : Jukebox :=
  mkJukebox c (j_player j) (j_sent j) (j_i j) (j_items j) (j_mem j) (j_log j).
Definition set_player (p : P) (j : Jukebox) : Jukebox :=
  mkJukebox (j_pcmr j) p (j_sent j) (j_i j) (j_items j) (j_mem j) (j_log j).
Definition set_sent (s : list Signal) (j : Jukebox) : Jukebox :=
  mkJukebox (j_pcmr j) (j_player j) s (j_i j) (j_items j) (j_mem j) (j_log j).
Definition set_i (i : Z) (j : Jukebox) : Jukebox :=
  mkJukebox (j_pcmr j) (j_player j) (j_sent j) i (j_items j) (j_mem j) (j_log j).
Definition set_items (l : list ptr) (j : Jukebox) : Jukebox :=
  mkJukebox (j_pcmr j) (j_player j) (j_sent j) (j_i j) l (j_mem j) (j_log j).
Definition set_mem (m : list PlaylistItem) (j : Jukebox) : Jukebox :=
  mkJukebox (j_pcmr j) (j_player j) (j_sent j) (j_i j) (j_items j) m (j_log j).
Definition set_log (l : list error) (j : Jukebox) : Jukebox :=
  mkJukebox (j_pcmr j) (j_player j) (j_sent j) (j_i j) (j_items j) (j_mem j) l.

(** *** The state monad of the methods *)

Definition M (A : Type) : Type := Jukebox -> A * Jukebox.

Definition ret {A : Type} (a : A) : M A := fun j => (a, j).
Definition bind {A B : Type} (m : M A) (k : A -> M B) : M B :=
  fun j => let (a, j') := m j in k a j'.
Definition get : M Jukebox := fun j => (j, j).
Definition modify (f : Jukebox -> Jukebox) : M unit := fun j => (tt, f j).

Definition exec {A : Type} (m : M A) (j : Jukebox) : Jukebox := snd (m j).
Definition eval {A : Type} (m : M A) (j : Jukebox) : A := fst (m j).

Notation "x <- m ;; k" := (bind m (fun x => k))
  (at level 20, m at level 99, k at level 200, only parsing).
Notation "m ;; k" := (bind m (fun _ => k))
  (at level 100, k at level 200, only parsing, right associativity).

(** [j.read(f)] and [j.write(f)] take the lock around [f]; with the calls
    run one after the other they are [f]. *)
Definition read {A : Type} (f : M A) : M A := f.
Definition write {A : Type} (f : M A) : M A := f.

(** [ch <- struct{}{}] and [close(ch)]: the rendezvous is recorded. *)
Definition send (s : Signal) : M unit :=
  modify (fun j => set_sent (j_sent j ++ [s]) j).

Definition player_do (f : P -> P) : M unit :=
  modify (fun j => set_player (f (j_player j)) j).

Definition pcmr_Reset : M unit :=
  modify (fun j => set_pcmr (CountReader.Reset (j_pcmr j)) j).

(** [func New(transcoder, pf)], given the player that [pf] returned. *)
Definition New (p : P) : Jukebox :=
  mkJukebox CountReader.NewCountReader p [] 0 [] [] [].

(** Allocation of an item by a caller: [NewPlaylistItem(id, path)] as a
    pointer. *)
Definition alloc (id : Z) (path : string) : M ptr :=
  j <- get ;;
  modify (set_mem (j_mem j ++ [NewPlaylistItem id path])) ;;
  ret (length (j_mem j)).

Definition GetItems : M (list ptr) :=
  read (j <- get ;; ret ([] ++ j_items j)).

Definition SetItems (items : list ptr) : M unit :=
  write (modify (set_items items)) ;;
  send next.

Definition AppendItems (items : list ptr) : M unit :=
  write (modify (fun j => set_items (j_items j ++ items) j)).

Definition RemoveItem (i : Z) : M unit :=
  write (
    j <- get ;;
    if negb (inbounds (len (j_items j)) i) then ret tt
    else modify (set_items (take (Z.to_nat i) (j_items j)
                              ++ drop (Z.to_nat (i + 1)) (j_items j)))).

Definition ClearItems : M unit :=
  write (
    modify (set_i 0) ;;
    modify (set_items []) ;;
    player_do Reset ;;
    pcmr_Reset).

Definition Quit : M unit :=
  write (
    modify (set_i 0) ;;
    modify (set_items []) ;;
    pcmr_Reset ;;
    player_do Close ;;
    send quit).

Definition Jukebox_Pause : M unit := player_do Pause.
Definition Jukebox_Play : M unit := player_do Play.

(** [Current] returns a pointer and an error: [None] is the [nil]
    pointer and the [nil] error. *)
Definition Current : M (option ptr * option error) :=
  read (
    j <- get ;;
    if negb (inbounds (len (j_items j)) (j_i j)) then ret (None, Some ErrOOB)
    else ret (j_items j !! Z.to_nat (j_i j), None)).

(** [j.items[i].seek = d]: a store through the pointer at index [i]. *)
Definition store_seek (i : Z) (d : Go.Duration) (j : Jukebox) : Jukebox :=
  match j_items j !! Z.to_nat i with
  | Some p => set_mem (alter (set_seek d) p (j_mem j)) j
  | None => j
  end.

Definition Skip (i : Z) (offsetSecs : Z) : M unit :=
  write (
    j <- get ;;
    if negb (inbounds (len (j_items j)) i) then ret tt
    else
      modify (set_i i) ;;
      modify (store_seek i (Go.seconds_duration offsetSecs)) ;;
      player_do Play ;;
      send next).

Definition SetGain (v : Go.float64) : M unit := player_do (SetVolume v).
Definition GetGain : M Go.float64 := j <- get ;; ret (Volume (j_player j)).

(** [item := j.items[j.i]] followed by a read of a field of [*item]. *)
Definition deref (j : Jukebox) (p : ptr) : PlaylistItem := j_mem j !!! p.

Definition GetStatus : M Status :=
  read (
    j <- get ;;
    let CurrentIndex := j_i j in
    let Playing := IsPlaying (j_player j) in
    let Gain := Volume (j_player j) in
    if negb (inbounds (len (j_items j)) (j_i j))
    then ret (mkStatus CurrentIndex Playing Gain 0)
    else
      let item := deref j (j_items j !!! Z.to_nat (j_i j)) in
      let playedBytes :=
        Go.uint64 (CountReader.Count (j_pcmr j)
                   - Go.uint64 (UnplayedBufferSize (j_player j))) in
      let playedSecs := playedBytes / (BitRate / 8) in
      let seekedSecs := Go.Seconds (item_seek item) in
      ret (mkStatus CurrentIndex Playing Gain
             (Go.int64 (Go.int64 playedSecs + Go.int_of_float64 seekedSecs)))).

(** The closure [decode] of [DecodeStream]; the deferred reset of the
    pipe runs when the closure returns, on either path. *)
Definition decode (transcoder : Transcoder) (ctx : nat) : M unit :=
  (r <- Current ;;
   match r with
   | (_, Some _) => ClearItems
   | (item, None) =>
       j <- get ;;
       let it := deref j (default 0%nat item) in
       let profile := WithSeek_PCM16le (item_seek it) in
       match transcoder ctx profile (item_path it) with
       | Some err => modify (fun j => set_log (j_log j ++ [err]) j)
       | None => ret tt
       end ;;
       write (modify (fun j => set_i (Go.int64 (j_i j + 1)) j)) ;;
       send next
   end) ;;
  pcmr_Reset.

(** The player's read loop takes [n] bytes through the counting reader. *)
Definition PlayerRead (n : Z) : M unit :=
  modify (fun j => set_pcmr (CountReader.Read n (j_pcmr j)) j) ;;
  player_do (Feed n).

End Engine.

Arguments Jukebox P : clear implicits.
Arguments M P : clear implicits.

(** ** The control loop of [DecodeStream] *)

Module Loop.

(** The case of the [select] that fires in one iteration. *)
Inductive Received : Type := RecvNext | RecvCancel | RecvQuit.

(** How a statement ends: it runs to its end, or a [break] leaves it. *)
Inductive Completion : Type := Normal | Break.

(** The receipt of what was sent ([quit] is received once closed). *)
Definition receipt (s : Signal) : Received :=
  match s with
  | next => RecvNext
  | cancel => RecvCancel
  | quit => RecvQuit
  end.

(** The contexts are numbered in the order the loop creates them, one
    per iteration.  [fired] lists the contexts whose [cancel] the loop
    has called, [sessions] the contexts of the decode sessions it has
    started with [go]. *)
Record t : Type := Make {
  iterations : nat;
  fired : list nat;
  sessions : list nat
}.

Definition init : t := Make 0 [] [].

(** The statements of the three cases, with [ctx] the context of the
    iteration. *)
Definition case_body (r : Received) (ctx : nat) (l : t) : t * Completion :=
  match r with
  | RecvNext => (Make (iterations l) (fired l) (sessions l ++ [ctx]), Normal)
  | RecvCancel => (Make (iterations l) (fired l ++ [ctx]) (sessions l), Normal)
  | RecvQuit => (Make (iterations l) (fired l ++ [ctx]) (sessions l), Break)
  end.

(** The [select] statement.  In Go a [break] ends the innermost [for],
    [switch] or [select]: the one of the third case ends the [select],
    which then has run to its end like the other two. *)
Definition select (r : Received) (ctx : nat) (l : t) : t * Completion :=
  let (l', c) := case_body r ctx l in
  (l', match c with Break => Normal | Normal => Normal end).

(** The body of the [for]: [ctx, cancel := context.WithCancel(...)], then
    the [select]. *)
Definition body (r : Received) (l : t) : t * Completion :=
  let ctx := iterations l in
  select r ctx (Make (S (iterations l)) (fired l) (sessions l)).

(** [for { body }] over the receptions [rs], oldest first: the loop ends
    when its body ends by a [break].  The boolean tells whether the loop
    is still running, back at the [select]. *)
Fixpoint DecodeStream (rs : list Received) (l : t) : t * bool :=
  match rs with
  | [] => (l, true)
  | r :: rs' =>
      match body r l with
      | (l', Normal) => DecodeStream rs' l'
      | (l', Break) => (l', false)
      end
  end.

End Loop.

(** ** Runs of the engine *)

Section Runs.

Context {P : Type} `{Player P}.

(** What can happen to the engine: a call of a handler, the end of a
    decode session, reads of the player. *)
Inductive Call : Type :=
| CallNewPlaylistItem (id : Z) (path : string)
| CallSetItems (items : list ptr)
| CallAppendItems (items : list ptr)
| CallRemoveItem (i : Z)
| CallClearItems
| CallPause
| CallPlay
| CallSkip (i offsetSecs : Z)
| CallSetGain (v : Go.float64)
| CallQuit
| SessionDecode (transcoder : Transcoder) (ctx : nat)
| PlayerReads (n : Z).

Definition step (c : Call) : M P unit :=
  match c with
  | CallNewPlaylistItem id path => bind (alloc id path) (fun _ => ret tt)
  | CallSetItems items => SetItems items
  | CallAppendItems items => AppendItems items
  | CallRemoveItem i => RemoveItem i
  | CallClearItems => ClearItems
  | CallPause => Jukebox_Pause
  | CallPlay => Jukebox_Play
  | CallSkip i offsetSecs => Skip i offsetSecs
  | CallSetGain v => SetGain v
  | CallQuit => Quit
  | SessionDecode transcoder ctx => decode transcoder ctx
  | PlayerReads n => PlayerRead n
  end.

Definition run (cs : list Call) (j : Jukebox P) : Jukebox P :=
  fold_left (fun j c => exec (step c) j) cs j.

(** Every pointer of the playlist points to an allocated item, and the
    length of the slice is an [int]. *)
Definition wf (j : Jukebox P) : Prop :=
  Forall (fun p : ptr => (p < length (j_mem j))%nat) (j_items j)
  /\ len (j_items j) < Go.two63.

(** The arguments a caller can pass: pointers it holds, and [int]s; the
    offsets of [Skip] are those in [okoff]. *)
Definition call_ok (okoff : Z -> Prop) (j : Jukebox P) (c : Call) : Prop :=
  match c with
  | CallSetItems items =>
      Forall (fun p : ptr => (p < length (j_mem j))%nat) items
      /\ len items < Go.two63
  | CallAppendItems items =>
      Forall (fun p : ptr => (p < length (j_mem j))%nat) items
      /\ len (j_items j ++ items) < Go.two63
  | CallRemoveItem i => Go.is_int64 i
  | CallSkip i offsetSecs => Go.is_int64 i /\ Go.is_int64 offsetSecs /\ okoff offsetSecs
  | PlayerReads n => 0 <= n < Go.two63
  | _ => True
  end.

(** The states the engine built on the player [p0] can be in. *)
Inductive reachable (okoff : Z -> Prop) (p0 : P) : Jukebox P -> Prop :=
| reachable_New : reachable okoff p0 (New p0)
| reachable_step j c :
    reachable okoff p0 j -> call_ok okoff j c ->
    reachable okoff p0 (exec (step c) j).

End Runs.

(** ** What the operations are to establish *)

Section Specifications.

Context {P : Type} `{Player P}.

Implicit Types (j : Jukebox P).

(** The arguments of the [Transcode] call of a decode session started in
    [j]: the profile with the seek of the current item, and its path;
    none when [Current()] fails and the session ends before the call. *)
Definition session_call j : option (Profile * string) :=
  match eval Current j with
  | (Some p, None) =>
      Some (WithSeek_PCM16le (item_seek (deref j p)), item_path (deref j p))
  | _ => None
  end.

(** What every session that reaches the [Transcode] call leaves, up to
    the line it may have logged. *)
Definition session_tail j : Jukebox P :=
  set_pcmr (CountReader.Reset (j_pcmr j))
    (set_sent (j_sent j ++ [next]) (set_i (Go.int64 (j_i j + 1)) j)).

(** What [Skip(i, offsetSecs)] is to do from [j] to [j']: at an index in
    bounds the cursor is [i], the item at [i] has a seek of [offsetSecs]
    seconds, [Play] has been called on the player and [next] has been
    sent; at any other index nothing has changed. *)
Definition Skip_post j (i offsetSecs : Z) (j' : Jukebox P) : Prop :=
  if inbounds (len (j_items j)) i then
    j_i j' = i
    /\ (exists p, j_items j !! Z.to_nat i = Some p
                  /\ item_seek <$> j_mem j' !! p = Some (offsetSecs * Go.Second))
    /\ j_player j' = Play (j_player j)
    /\ j_sent j' = j_sent j ++ [next]
    /\ j_items j' = j_items j
  else j' = j.

(** The position as the formula reads over the integers: the bytes played,
    divided by the bytes of a second, plus the whole seconds of the seek of
    the current item ([Z.quot] is the division of Go). *)
Definition position_formula j : Z :=
  Z.quot (CountReader.Count (j_pcmr j) - UnplayedBufferSize (j_player j)) 192000
  + Z.quot (item_seek (deref j (j_items j !!! Z.to_nat (j_i j)))) Go.Second.

(** The calls of a run are all admissible. *)
Fixpoint calls_ok (okoff : Z -> Prop) (cs : list Call) j : Prop :=
  match cs with
  | [] => True
  | c :: cs' => call_ok okoff j c /\ calls_ok okoff cs' (exec (step c) j)
  end.

(** Every seek is non-negative. *)
Definition seeks_nonneg j : Prop :=
  Forall (fun it => 0 <= item_seek it) (j_mem j).

(** With offsets that do not overflow, every seek is a whole number of
    seconds. *)
Definition seeks_whole j : Prop :=
  Forall (fun it => exists k, -9223372036 <= k <= 9223372036
                              /\ item_seek it = k * Go.Second) (j_mem j).

End Specifications.

(** ** Two states of the engine of the tests *)

(** A playlist of one item on the mock, the cursor on it. *)
Definition one_item : Jukebox mockPlayer :=
  run [CallNewPlaylistItem 0 "a"%string; CallSetItems [0%nat]] (New newMock).

(** The second step of the skip test: one item, playing, [Skip(0, 2)], and
    one second of audio read by the player. *)
Definition skipped_2s_read_1s : Jukebox mockPlayer :=
  run [CallNewPlaylistItem 0 "a"%string; CallSetItems [0%nat]; CallPlay;
       CallSkip 0 2; PlayerReads 192000] (New newMock).

(** ** The test double's reads *)

Declare Scope jukebox_scope.
Delimit Scope jukebox_scope with jukebox_scope.
Notation "x <- m ;; k" := (bind m (fun x => k))
  (at level 20, m at level 99, k at level 200, only parsing) : jukebox_scope.
Notation "m ;; k" := (bind m (fun _ => k))
  (at level 100, k at level 200, only parsing, right associativity) : jukebox_scope.

(** [func min(a, b int) int] of the test file. *)
Definition go_min (a b : Z) : Z := if a <? b then a else b.

(** [func secsToBytes(secs int) int]: [secs * (jukebox.BitRate / 8)]. *)
Definition secsToBytes (secs : Z) : Z := Go.int64 (secs * (BitRate / 8)).

(** [func (m *mockPlayer) ReadN(to int)]:
    [for read < to { n, _ := m.r.Read(make([]byte, min(to-read, 2<<14)));
    read += n }].  [deliver k req] is the number of bytes that the [k]-th
    [Read] returns for a buffer of [req] bytes; each [Read] goes through the
    counting reader of the engine.  The loop is given fuel: [None] is a run
    that the fuel did not cover. *)
Fixpoint ReadN_loop (fuel : nat) (deliver : nat -> Z -> Z) (to read : Z) (k : nat)
  : M mockPlayer (option unit) :=
  match fuel with
  | O => ret None
  | S fuel' =>
      if read <? to then
        let n := deliver k (go_min (Go.int64 (to - read)) (Z.shiftl 2 14)) in
        (PlayerRead n ;;
         ReadN_loop fuel' deliver to (Go.int64 (read + n)) (S k))%jukebox_scope
      else ret (Some tt)
  end.

Definition ReadN (fuel : nat) (deliver : nat -> Z -> Z) (to : Z)
  : M mockPlayer (option unit) :=
  ReadN_loop fuel deliver to 0 0.

(** The receipts that start a decode session. *)
Definition is_next (r : Loop.Received) : bool :=
  match r with Loop.RecvNext => true | _ => false end.

(** The gain that the calls of a run leave on a player that keeps what
    [SetVolume] gave it: the argument of the last [SetGain]. *)
Definition last_gain (cs : list Call) (g0 : Go.float64) : Go.float64 :=
  fold_left (fun g c => match c with CallSetGain v => v | _ => g end) cs g0.

(** The decode sessions of a run, each with its transcoder and context. *)
Definition sessions_run (ss : list (Transcoder * nat)) : list Call :=
  map (fun s => SessionDecode (fst s) (snd s)) ss.

(** ** The handler of the jukebox requests *)

Module Handler.

(** [specid.ID], of which the handler reads [Value]. *)
Record specID : Type := mkID { Value : Z }.

(** What the handler reads of the request, as the methods of
    [params.Params] return it: [None] where the method returns an error.
    For ["action"] and ["offset"] the handler drops the error and uses the
    value. *)
Record Params (gainT : Type) : Type := mkParams {
  action : string;
  idList : option (list specID);
  index : option Z;
  offset : Z;
  gain : option gainT
}.

Arguments action {gainT}.
Arguments idList {gainT}.
Arguments index {gainT}.
Arguments offset {gainT}.
Arguments gain {gainT}.

(** [*spec.Response]: an error with its code and the text before the
    formatted cause, the status, or the status with the tracks of the
    playlist (each stands for its [spec.NewTrackByTags]). *)
Inductive Response (Track : Type) : Type :=
| RespError (code : Z) (msg : string)
| RespStatus (status : Status)
| RespPlaylist (status : Status) (list : list Track).

Arguments RespError {Track}.
Arguments RespStatus {Track}.
Arguments RespPlaylist {Track}.

Section ServeJukebox.

Context {P : Type} `{Player P}.

(** The rows of table [tracks]: [c.DB.Preload("Album").First(&track, id)]
    finds a track or returns an error; [track.AbsPath()] is its path. *)
Variable Track : Type.
Variable AbsPath : Track -> string.
Variable db : Z -> option Track.

Local Open Scope string_scope.
Local Open Scope jukebox_scope.

(** The closure [createPlaylistItems]; [items] is the slice built so far. *)
Fixpoint createPlaylistItems (ids : list specID) (items : list ptr)
  : M P (option (list ptr)) :=
  match ids with
  | [] => ret (Some items)
  | id :: ids' =>
      match db (Value id) with
      | None => ret None
      | Some track =>
          p <- alloc (Value id) (AbsPath track) ;;
          createPlaylistItems ids' (items ++ [p])%list
      end
  end.

(** The closure [getStatus]. *)
Definition getStatus : M P Status := GetStatus.

(** The closure [getStatusTracks]: the tracks of the items, in order, or
    the first error of a lookup. *)
Definition getStatusTracks : M P (option (list Track)) :=
  items <- GetItems ;;
  j <- get ;;
  ret (mapM (fun p : ptr => db (ID (deref j p))) items).

Definition status_response : M P (Response Track) :=
  status <- getStatus ;; ret (RespStatus status).

(** [func (c *Controller) ServeJukebox(r *http.Request) *spec.Response] *)
Definition ServeJukebox (params : Params Go.float64) : M P (Response Track) :=
  let act := action params in
  if String.eqb act "set" then
    match idList params with
    | None => ret (RespError 10 "please provide a valid list of ids")
    | Some ids =>
        r <- createPlaylistItems ids [] ;;
        match r with
        | None => ret (RespError 10 "error creating playlist items: %v")
        | Some playlistItems => SetItems playlistItems ;; status_response
        end
    end
  else if String.eqb act "add" then
    match idList params with
    | None => ret (RespError 10 "please provide a valid list of ids")
    | Some ids =>
        r <- createPlaylistItems ids [] ;;
        match r with
        | None => ret (RespError 10 "error creating playlist items: %v")
        | Some playlistItems => AppendItems playlistItems ;; status_response
        end
    end
  else if String.eqb act "clear" then ClearItems ;; status_response
  else if String.eqb act "remove" then
    match index params with
    | None => ret (RespError 10 "please provide an id for remove actions")
    | Some i => RemoveItem i ;; status_response
    end
  else if String.eqb act "stop" then Jukebox_Pause ;; status_response
  else if String.eqb act "start" then Jukebox_Play ;; status_response
  else if String.eqb act "skip" then
    match index params with
    | None => ret (RespError 10 "please provide an index for skip actions")
    | Some i => Skip i (offset params) ;; status_response
    end
  else if String.eqb act "get" then
    statusTracks <- getStatusTracks ;;
    match statusTracks with
    | None => ret (RespError 10 "error getting status tracks: %v")
    | Some tracks => status <- getStatus ;; ret (RespPlaylist status tracks)
    end
  else if String.eqb act "setGain" then
    match gain params with
    | None => ret (RespError 10 "please provide a valid gain param")
    | Some v => SetGain v ;; status_response
    end
  else status_response.

End ServeJukebox.

End Handler.

(** The fields of the Go struct agree: a caller sees the same engine. *)
Definition same_engine {P : Type} (j j' : Jukebox P) : Prop :=
  j_pcmr j' = j_pcmr j /\ j_player j' = j_player j /\ j_sent j' = j_sent j
  /\ j_i j' = j_i j /\ j_items j' = j_items j.

(** One item, playing, one second of audio read. *)
Definition read_1s : Jukebox mockPlayer :=
  run [CallNewPlaylistItem 0 "a"%string; CallSetItems [0%nat]; CallPlay;
       PlayerReads 192000] (New newMock).

(** A table of two tracks, each standing for its path. *)
Definition two_tracks (id : Z) : option string :=
  if id =? 1 then Some "/music/one.mp3"%string
  else if id =? 2 then Some "/music/two.mp3"%string
  else None.

(** A pipe that hands out at most 10000 bytes per [Read]. *)
Definition deliver_10000 (k : nat) (req : Z) : Z := Z.min req 10000.

(** * Properties *)

(** The admissibility of the calls of a concrete run. *)
Ltac calls_ok_tac :=
  cbn; unfold Go.is_int64, Go.two63, len; cbn;
  repeat match goal with
         | |- _ /\ _ => split
         | |- Forall _ _ => constructor
         | |- True => exact I
         | |- _ => lia
         end.

(** ** The arithmetic at work *)

Example seconds_2s : Go.int_of_float64 (Go.Seconds (Go.seconds_duration 2)) = 2.
Proof. vm_compute. reflexivity. Qed.

Example seconds_1500ms : Go.int_of_float64 (Go.Seconds 1500000000) = 1.
Proof. vm_compute. reflexivity. Qed.

Example seconds_neg : Go.int_of_float64 (Go.Seconds (-1500000000)) = -1.
Proof. vm_compute. reflexivity. Qed.

Example BitRate_bytes : BitRate / 8 = 192000.
Proof. reflexivity. Qed.

(** ** Facts about the arithmetic *)

Lemma int64_id (x : Z) : Go.is_int64 x -> Go.int64 x = x.
Proof.
  unfold Go.is_int64, Go.int64, Go.two63, Go.two64. intros Hx.
  rewrite Z.mod_small; lia.
Qed.

Lemma uint64_id (x : Z) : Go.is_uint64 x -> Go.uint64 x = x.
Proof.
  unfold Go.is_uint64, Go.uint64, Go.two64. intros Hx.
  apply Z.mod_small. lia.
Qed.

Lemma int64_range (x : Z) : Go.is_int64 (Go.int64 x).
Proof.
  unfold Go.is_int64, Go.int64, Go.two63, Go.two64.
  pose proof (Z.mod_pos_bound (x + 2 ^ 63) (2 ^ 64) ltac:(lia)). lia.
Qed.

(** Within 292 years the product by [time.Second] does not overflow. *)
Lemma seconds_duration_exact (n : Z) :
  -9223372036 <= n <= 9223372036 -> Go.seconds_duration n = n * Go.Second.
Proof.
  intros Hn. unfold Go.seconds_duration, Go.Second.
  rewrite (int64_id n) by (unfold Go.is_int64, Go.two63; lia).
  apply int64_id. unfold Go.is_int64, Go.two63. lia.
Qed.

(** *** [float64(n)] and back *)

Lemma digits2_pos_size (m : positive) : digits2_pos m = Pos.size m.
Proof. induction m as [m IH | m IH |]; cbn; rewrite ?IH; reflexivity. Qed.

Lemma digits2_pos_bound (m : positive) :
  Z.pos m < 2 ^ 53 -> Z.pos (digits2_pos m) <= 53.
Proof.
  intros Hm. rewrite digits2_pos_size.
  pose proof (Pos.size_le m) as Hle.
  apply Pos2Z.pos_le_pos in Hle. rewrite Pos2Z.inj_pow in Hle.
  destruct (Z.le_gt_cases (Z.pos (Pos.size m)) 53) as [Hok | Hbig]; [exact Hok |].
  exfalso.
  assert (2 ^ 54 <= 2 ^ Z.pos (Pos.size m)) by (apply Z.pow_le_mono_r; lia).
  change (Z.pos m~0) with (2 * Z.pos m) in Hle. lia.
Qed.

Lemma iter_xO_digits (k m : positive) :
  digits2_pos (Pos.iter xO m k) = (digits2_pos m + k)%positive.
Proof.
  induction k as [| k IH] using Pos.peano_ind.
  - cbn. lia.
  - rewrite Pos.iter_succ. cbn. rewrite IH. lia.
Qed.

Lemma iter_xO_value (k m : positive) :
  Z.pos (Pos.iter xO m k) = Z.pos m * 2 ^ Z.pos k.
Proof.
  induction k as [| k IH] using Pos.peano_ind.
  - cbn. lia.
  - rewrite Pos.iter_succ, Pos2Z.inj_succ, Z.pow_succ_r by lia.
    change (Z.pos (Pos.iter xO m k)~0) with (2 * Z.pos (Pos.iter xO m k)).
    rewrite IH. lia.
Qed.

(** A mantissa of 53 bits is not rounded. *)
Lemma binary_round_aux_canonical (s : bool) (m : positive) (e : Z) :
  Z.pos (digits2_pos m) = 53 -> -1021 <= e <= 971 ->
  binary_round_aux Go.prec Go.emax s (Z.pos m) e loc_Exact = S754_finite s m e.
Proof.
  intros Hd He. unfold binary_round_aux, shr_fexp, Zdigits2.
  assert (Hf : fexp Go.prec Go.emax (Z.pos (digits2_pos m) + e) - e = 0).
  { unfold fexp, emin, Go.prec, Go.emax. lia. }
  rewrite Hf. cbn -[digits2_pos fexp]. rewrite Hf. cbn.
  change (Go.emax - Go.prec) with 971.
  destruct (e <=? 971) eqn:Hle; [reflexivity | apply Z.leb_gt in Hle; lia].
Qed.

Lemma float64_of_pos_exact (s : bool) (m : positive) :
  Z.pos m < 2 ^ 53 ->
  Go.int_of_float64 (binary_round Go.prec Go.emax s m 0)
  = Go.int64 (if s then - Z.pos m else Z.pos m).
Proof.
  intros Hm. pose proof (digits2_pos_bound m Hm) as Hd.
  unfold binary_round, shl_align.
  assert (Hf : fexp Go.prec Go.emax (Z.pos (digits2_pos m) + 0)
               = Z.pos (digits2_pos m) - 53).
  { unfold fexp, emin, Go.prec, Go.emax. lia. }
  rewrite Hf.
  destruct (Z.pos (digits2_pos m) - 53 - 0) as [| k | k] eqn:Hk; try lia.
  - rewrite binary_round_aux_canonical by lia.
    cbn [Go.int_of_float64]. rewrite Z.mul_1_r. reflexivity.
  - rewrite binary_round_aux_canonical
      by (rewrite ?iter_xO_digits; lia).
    unfold Go.int_of_float64.
    replace (Z.pos (digits2_pos m) - 53) with (Z.neg k) by lia.
    rewrite iter_xO_value, Z.div_mul by lia. reflexivity.
Qed.

(** Integers below 2^53 are [float64] values. *)
Lemma float64_of_int_exact (n : Z) :
  - 2 ^ 53 < n < 2 ^ 53 -> Go.int_of_float64 (Go.float64_of_int n) = n.
Proof.
  intros Hn. unfold Go.float64_of_int, binary_normalize.
  destruct n as [| m | m].
  - reflexivity.
  - rewrite float64_of_pos_exact by lia.
    apply int64_id. unfold Go.is_int64, Go.two63. lia.
  - rewrite float64_of_pos_exact by lia.
    apply int64_id. unfold Go.is_int64, Go.two63. lia.
Qed.

Lemma fadd_zero_r (x : Go.float64) :
  Go.int_of_float64 (Go.fadd x (S754_zero false)) = Go.int_of_float64 x.
Proof. destruct x as [[|] | [|] | | s m e]; reflexivity. Qed.

(** A seek of whole seconds is converted without loss. *)
Lemma Seconds_whole (k : Z) :
  -9223372036 <= k <= 9223372036 ->
  Go.int_of_float64 (Go.Seconds (k * Go.Second)) = k.
Proof.
  intros Hk. unfold Go.Seconds.
  rewrite Z.quot_mul, Z.rem_mul by (unfold Go.Second; lia).
  replace (Go.fdiv (Go.float64_of_int 0) (Go.float64_of_int 1000000000))
    with (S754_zero false) by (vm_compute; reflexivity).
  rewrite fadd_zero_r. apply float64_of_int_exact. lia.
Qed.

(** Not so for every seek that [Skip] can leave: past 2^33 seconds the sum
    in [Seconds] rounds 0.999999488 up to the next second. *)
Example Seconds_rounds_up :
  Go.seconds_duration 15817298423145364 = 8589934592999999488
  /\ Z.quot 8589934592999999488 Go.Second = 8589934592
  /\ Go.int_of_float64 (Go.Seconds 8589934592999999488) = 8589934593.
Proof. vm_compute. repeat split. Qed.

Lemma inbounds_spec (length i : Z) :
  inbounds length i = true <-> 0 < length /\ 0 <= i < length.
Proof. unfold inbounds. rewrite !andb_true_iff, !Z.ltb_lt, Z.leb_le. lia. Qed.

Lemma inbounds_lookup {A : Type} (l : list A) (i : Z) :
  inbounds (len l) i = true -> exists x, l !! Z.to_nat i = Some x.
Proof.
  intros Hi. apply inbounds_spec in Hi. unfold len in Hi.
  destruct (lookup_lt_is_Some_2 l (Z.to_nat i)) as [x Hx]; [lia | eauto].
Qed.

Section Properties.

Context {P : Type} `{Player P}.

Implicit Types (j : Jukebox P) (items : list ptr).

(** ** The playlist operations *)

Lemma SetItems_exec j items :
  exec (SetItems items) j
  = set_sent (j_sent j ++ [next]) (set_items items j).
Proof. reflexivity. Qed.

Lemma AppendItems_exec j items :
  exec (AppendItems items) j = set_items (j_items j ++ items) j.
Proof. reflexivity. Qed.

Lemma Current_exec j : exec Current j = j.
Proof.
  unfold exec, Current, read, bind, get, ret.
  destruct (negb _); reflexivity.
Qed.

Lemma Current_inbounds j :
  inbounds (len (j_items j)) (j_i j) = true ->
  eval Current j = (j_items j !! Z.to_nat (j_i j), None).
Proof.
  intros Hin. unfold eval, Current, read, bind, get, ret.
  rewrite Hin. reflexivity.
Qed.

Lemma Current_oob j :
  inbounds (len (j_items j)) (j_i j) = false ->
  eval Current j = (None, Some ErrOOB).
Proof.
  intros Hin. unfold eval, Current, read, bind, get, ret.
  rewrite Hin. reflexivity.
Qed.

Lemma store_seek_frame i d j :
  let j' := store_seek i d j in
  j_pcmr j' = j_pcmr j /\ j_player j' = j_player j /\ j_sent j' = j_sent j
  /\ j_i j' = j_i j /\ j_items j' = j_items j /\ j_log j' = j_log j
  /\ length (j_mem j') = length (j_mem j).
Proof.
  unfold store_seek. destruct (j_items j !! Z.to_nat i); cbn;
    rewrite ?length_alter; repeat split.
Qed.

Lemma Skip_exec_inbounds j i offsetSecs :
  inbounds (len (j_items j)) i = true ->
  exec (Skip i offsetSecs) j
  = let j1 := store_seek i (Go.seconds_duration offsetSecs) (set_i i j) in
    set_sent (j_sent j1 ++ [next]) (set_player (Play (j_player j1)) j1).
Proof.
  intros Hin. unfold exec, Skip, write, bind, get. rewrite Hin. reflexivity.
Qed.

Lemma Skip_exec_oob j i offsetSecs :
  inbounds (len (j_items j)) i = false -> exec (Skip i offsetSecs) j = j.
Proof.
  intros Hin. unfold exec, Skip, write, bind, get. rewrite Hin. reflexivity.
Qed.

(** C6: after [ClearItems()] the cursor is 0, the list is empty, the byte
    counter of the pipe is 0 and the player has been reset. *)
Theorem ClearItems_resets j :
  let j' := exec ClearItems j in
  j_i j' = 0
  /\ j_items j' = []
  /\ CountReader.Count (j_pcmr j') = 0
  /\ j_player j' = Reset (j_player j).
Proof. repeat split. Qed.

(** C7: [Current()] returns the item at the cursor exactly when the
    cursor is in bounds, that is when [len > 0] and [0 <= i < len]; in any
    other state it returns the out-of-bounds error and no item.  On an
    empty list it is the out-of-bounds error whatever the cursor. *)
Theorem Current_item_iff_inbounds j :
  ((exists p, eval Current j = (Some p, None))
     <-> (0 < len (j_items j) /\ 0 <= j_i j < len (j_items j)))
  /\ (forall p, eval Current j = (Some p, None) ->
                j_items j !! Z.to_nat (j_i j) = Some p)
  /\ ((forall p, eval Current j <> (Some p, None)) ->
      eval Current j = (None, Some ErrOOB))
  /\ (j_items j = [] -> eval Current j = (None, Some ErrOOB)).
Proof.
  rewrite <- inbounds_spec.
  destruct (inbounds (len (j_items j)) (j_i j)) eqn:Hin.
  - destruct (inbounds_lookup _ _ Hin) as [p Hp].
    rewrite (Current_inbounds j Hin), Hp.
    repeat split; eauto.
    + intros q [= ->]. reflexivity.
    + intros Hno. destruct (Hno p). reflexivity.
    + intros Hnil. rewrite Hnil in Hin. discriminate.
  - rewrite (Current_oob j Hin).
    repeat split; try discriminate; try reflexivity.
    intros [p [=]].
Qed.

(** C9: two appends give the list that [SetItems] of the concatenation
    gives: for the contents [prev] before, [AppendItems(A)] then
    [AppendItems(B)] and [SetItems(prev ++ A ++ B)] leave the same
    sequence of items, also as [GetItems()] returns it. *)
Theorem AppendItems_twice_is_SetItems j (A B : list ptr) :
  let prev := j_items j in
  let appended := exec (AppendItems B) (exec (AppendItems A) j) in
  let replaced := exec (SetItems (prev ++ A ++ B)) j in
  j_items appended = j_items replaced
  /\ j_items replaced = prev ++ A ++ B
  /\ eval GetItems appended = eval GetItems replaced.
Proof.
  cbn. rewrite <- app_assoc. repeat split.
Qed.

(** C10: [AppendItems(items)] changes the sequence of items and nothing
    else: cursor, pipe counter and player are as before and nothing is
    sent on a control channel, whereas [SetItems] sends [next], and so
    does [Skip] at an index in bounds. *)
Theorem AppendItems_frame j items :
  let j' := exec (AppendItems items) j in
  j_items j' = j_items j ++ items
  /\ j_i j' = j_i j
  /\ j_pcmr j' = j_pcmr j
  /\ j_player j' = j_player j
  /\ j_sent j' = j_sent j
  /\ j_mem j' = j_mem j
  /\ (forall l, j_sent (exec (SetItems l) j) = j_sent j ++ [next])
  /\ (forall i offsetSecs,
        inbounds (len (j_items j)) i = true ->
        j_sent (exec (Skip i offsetSecs) j) = j_sent j ++ [next]).
Proof.
  repeat split.
  intros i offsetSecs Hin.
  rewrite (Skip_exec_inbounds j i offsetSecs Hin). cbn.
  destruct (store_seek_frame i (Go.seconds_duration offsetSecs) (set_i i j))
    as (_ & _ & -> & _). reflexivity.
Qed.

(** [SetItems(items)] makes [items] the contents and sends [next]; the
    cursor, the pipe and the player are left as they are. *)
Theorem SetItems_contents_and_cursor j items :
  let j' := exec (SetItems items) j in
  j_items j' = items
  /\ j_i j' = j_i j
  /\ j_sent j' = j_sent j ++ [next]
  /\ j_pcmr j' = j_pcmr j
  /\ j_player j' = j_player j.
Proof. repeat split. Qed.

(** X4: with the cursor at 0, [Current()] after [SetItems(items)] of a list
    that is not empty returns its first item. *)
Theorem SetItems_then_Current j (p : ptr) (rest : list ptr) :
  j_i j = 0 ->
  eval Current (exec (SetItems (p :: rest)) j) = (Some p, None).
Proof.
  intros Hi. rewrite Current_inbounds; rewrite SetItems_exec; cbn; rewrite Hi.
  - reflexivity.
  - apply inbounds_spec. unfold len. cbn [length]. lia.
Qed.

(** X5: [RemoveItem(i)] at an index in bounds deletes the item at [i]: the
    items before it stay, the later ones move down by one; at any other
    index nothing changes.  The cursor is never adjusted. *)
Theorem RemoveItem_deletes j (i : Z) :
  let j' := exec (RemoveItem i) j in
  j_i j' = j_i j
  /\ (if inbounds (len (j_items j)) i
      then len (j_items j') = len (j_items j) - 1
           /\ forall k : nat,
                j_items j' !! k
                = if (k <? Z.to_nat i)%nat then j_items j !! k
                  else j_items j !! S k
      else j' = j).
Proof.
  cbv zeta. unfold exec, RemoveItem, write, bind, get.
  destruct (inbounds (len (j_items j)) i) eqn:Hin; cbn -[Nat.ltb];
    [| split; reflexivity].
  apply inbounds_spec in Hin. unfold len in *.
  split; [reflexivity |]. split.
  - rewrite length_app, length_take, length_drop. lia.
  - intros k. destruct (k <? Z.to_nat i)%nat eqn:Hk.
    + apply Nat.ltb_lt in Hk.
      rewrite lookup_app_l by (rewrite length_take; lia).
      apply lookup_take_lt. exact Hk.
    + apply Nat.ltb_ge in Hk.
      rewrite lookup_app_r by (rewrite length_take; lia).
      rewrite length_take, lookup_drop. f_equal. lia.
Qed.

End Properties.

Section Sessions.

Context {P : Type} `{Player P}.

Implicit Types (j : Jukebox P) (transcoder : Transcoder).

Lemma session_call_inbounds j c :
  session_call j = Some c -> inbounds (len (j_items j)) (j_i j) = true.
Proof.
  unfold session_call. intros Hc.
  destruct (inbounds (len (j_items j)) (j_i j)) eqn:Hin; [reflexivity |].
  rewrite (Current_oob j Hin) in Hc. discriminate.
Qed.

Lemma decode_exec transcoder ctx j profile path :
  session_call j = Some (profile, path) ->
  exec (decode transcoder ctx) j
  = match transcoder ctx profile path with
    | Some err => set_log (j_log j ++ [err]) (session_tail j)
    | None => session_tail j
    end.
Proof.
  intros Hc. pose proof (session_call_inbounds j _ Hc) as Hin.
  unfold session_call in Hc. rewrite (Current_inbounds j Hin) in Hc.
  destruct (j_items j !! Z.to_nat (j_i j)) as [p |] eqn:Hp; [| discriminate].
  injection Hc as <- <-.
  unfold exec, decode, bind. unfold Current, read, bind, get, ret.
  rewrite Hin. cbn. rewrite Hp. cbn.
  destruct (transcoder ctx _ _); reflexivity.
Qed.

Lemma decode_exec_oob transcoder ctx j :
  inbounds (len (j_items j)) (j_i j) = false ->
  exec (decode transcoder ctx) j = exec ClearItems j.
Proof.
  intros Hin. unfold exec, decode, bind. unfold Current, read, bind, get, ret.
  rewrite Hin. reflexivity.
Qed.

(** C4: a decode session whose [Transcode] call returns an error ends
    like one whose call succeeds: the pipe counter is 0, the cursor is one
    more than before and [next] has been sent; the two end states differ
    in the logged line only. *)
Theorem decode_error_advances transcoder ctx j profile path e :
  len (j_items j) < Go.two63 ->
  session_call j = Some (profile, path) ->
  transcoder ctx profile path = Some e ->
  let j' := exec (decode transcoder ctx) j in
  CountReader.Count (j_pcmr j') = 0
  /\ j_i j' = j_i j + 1
  /\ j_sent j' = j_sent j ++ [next]
  /\ j_items j' = j_items j
  /\ (forall succeeding : Transcoder,
        succeeding ctx profile path = None ->
        j' = set_log (j_log j ++ [e]) (exec (decode succeeding ctx) j)).
Proof.
  intros Hlen Hc He j'. subst j'.
  rewrite (decode_exec transcoder ctx j profile path Hc), He.
  pose proof (session_call_inbounds j _ Hc) as Hin.
  apply inbounds_spec in Hin. cbn.
  repeat split.
  - apply int64_id. unfold Go.is_int64, Go.two63 in *. lia.
  - intros succeeding Hok.
    rewrite (decode_exec succeeding ctx j profile path Hc), Hok. reflexivity.
Qed.

End Sessions.

Section Skipping.

Context {P : Type} `{Player P}.

Implicit Types (j : Jukebox P).

Lemma store_seek_lookup j i d p :
  j_items j !! Z.to_nat i = Some p ->
  (p < length (j_mem j))%nat ->
  item_seek <$> j_mem (store_seek i d j) !! p = Some d.
Proof.
  intros Hp Hlt. unfold store_seek. rewrite Hp. cbn.
  destruct (lookup_lt_is_Some_2 (j_mem j) p Hlt) as [it Hit].
  rewrite list_lookup_alter_eq, Hit. reflexivity.
Qed.

(** The seek that [Skip] stores is the product computed in [int64]. *)
Lemma Skip_seek j i offsetSecs p :
  inbounds (len (j_items j)) i = true ->
  j_items j !! Z.to_nat i = Some p ->
  (p < length (j_mem j))%nat ->
  item_seek <$> j_mem (exec (Skip i offsetSecs) j) !! p
  = Some (Go.seconds_duration offsetSecs).
Proof.
  intros Hin Hp Hlt. rewrite (Skip_exec_inbounds j i offsetSecs Hin). cbn.
  apply (store_seek_lookup (set_i i j)); assumption.
Qed.

(** C5, amended: at an index out of bounds [Skip(i, offsetSecs)] changes
    nothing, whatever the state and the offset.  At an index in bounds, for
    an offset of at most 9223372036 seconds either way (the durations an
    [int64] of nanoseconds holds), it sets the cursor to [i] and the seek of
    item [i] to [offsetSecs] seconds, calls [Play] and sends [next]. *)
Theorem Skip_sets_cursor_and_seek j i offsetSecs :
  (inbounds (len (j_items j)) i = false -> exec (Skip i offsetSecs) j = j)
  /\ (wf j ->
      -9223372036 <= offsetSecs <= 9223372036 ->
      Skip_post j i offsetSecs (exec (Skip i offsetSecs) j)).
Proof.
  split; [apply Skip_exec_oob |].
  intros [Hptr _] Hoff. unfold Skip_post.
  destruct (inbounds (len (j_items j)) i) eqn:Hin.
  - destruct (inbounds_lookup _ _ Hin) as [p Hp].
    assert (Hlt : (p < length (j_mem j))%nat).
    { rewrite Forall_forall in Hptr. apply Hptr.
      apply list_elem_of_lookup. eauto. }
    split; [| split; [| split; [| split]]].
    + rewrite (Skip_exec_inbounds j i offsetSecs Hin). cbn.
      apply (store_seek_frame i _ (set_i i j)).
    + exists p. split; [exact Hp |].
      rewrite (Skip_seek j i offsetSecs p Hin Hp Hlt).
      rewrite seconds_duration_exact by exact Hoff. reflexivity.
    + rewrite (Skip_exec_inbounds j i offsetSecs Hin). cbn.
      f_equal. apply (store_seek_frame i _ (set_i i j)).
    + rewrite (Skip_exec_inbounds j i offsetSecs Hin). cbn.
      f_equal. apply (store_seek_frame i _ (set_i i j)).
    + rewrite (Skip_exec_inbounds j i offsetSecs Hin). cbn.
      apply (store_seek_frame i _ (set_i i j)).
  - apply Skip_exec_oob. exact Hin.
Qed.

End Skipping.

(** ** Invariants of the reachable states *)

Section Invariants.

Context {P : Type} `{Player P}.

Implicit Types (j : Jukebox P) (c : Call).

Lemma decode_exec_cases transcoder ctx j :
  (inbounds (len (j_items j)) (j_i j) = false
   /\ exec (decode transcoder ctx) j = exec ClearItems j)
  \/ (inbounds (len (j_items j)) (j_i j) = true
      /\ (exec (decode transcoder ctx) j = session_tail j
          \/ exists err,
               exec (decode transcoder ctx) j
               = set_log (j_log j ++ [err]) (session_tail j))).
Proof.
  destruct (inbounds (len (j_items j)) (j_i j)) eqn:Hin.
  - right. split; [reflexivity |].
    destruct (inbounds_lookup _ _ Hin) as [p Hp].
    assert (Hc : session_call j
                 = Some (WithSeek_PCM16le (item_seek (deref j p)), item_path (deref j p))).
    { unfold session_call. rewrite (Current_inbounds j Hin), Hp. reflexivity. }
    rewrite (decode_exec transcoder ctx j _ _ Hc).
    destruct (transcoder ctx _ _) as [err |]; eauto.
  - left. split; [reflexivity |]. apply decode_exec_oob. exact Hin.
Qed.

(** A step leaves the store as it is, or allocates one item with seek 0,
    or is a [Skip] that stores its seek into one item. *)
Lemma step_mem c j :
  j_mem (exec (step c) j) = j_mem j
  \/ (exists id path, j_mem (exec (step c) j) = j_mem j ++ [NewPlaylistItem id path])
  \/ (exists i offsetSecs p,
        c = CallSkip i offsetSecs
        /\ j_mem (exec (step c) j)
           = alter (set_seek (Go.seconds_duration offsetSecs)) p (j_mem j)).
Proof.
  destruct c as [id path | items | items | i | | | | i off | v | | tr ctx | n];
    cbn [step]; try (left; reflexivity).
  - right; left. exists id, path. reflexivity.
  - left. unfold exec, RemoveItem, write, bind, get.
    destruct (negb _); reflexivity.
  - destruct (inbounds (len (j_items j)) i) eqn:Hin.
    + rewrite (Skip_exec_inbounds j i off Hin). cbn.
      unfold store_seek. cbn.
      destruct (j_items j !! Z.to_nat i) as [p |]; cbn.
      * right; right. exists i, off, p. split; reflexivity.
      * left. reflexivity.
    + left. rewrite (Skip_exec_oob j i off Hin). reflexivity.
  - left. destruct (decode_exec_cases tr ctx j)
      as [[_ ->] | [_ [-> | [err ->]]]]; reflexivity.
Qed.

Lemma step_items c j :
  j_items (exec (step c) j) = j_items j
  \/ j_items (exec (step c) j) = []
  \/ (exists items, c = CallSetItems items /\ j_items (exec (step c) j) = items)
  \/ (exists items, c = CallAppendItems items
                    /\ j_items (exec (step c) j) = j_items j ++ items)
  \/ (exists i, j_items (exec (step c) j)
                = take (Z.to_nat i) (j_items j) ++ drop (Z.to_nat (i + 1)) (j_items j)).
Proof.
  destruct c as [id path | items | items | i | | | | i off | v | | tr ctx | n];
    cbn [step]; try (left; reflexivity); try (right; left; reflexivity).
  - right; right; left. exists items. split; reflexivity.
  - right; right; right; left. exists items. split; reflexivity.
  - unfold exec, RemoveItem, write, bind, get.
    destruct (negb _); cbn; [left; reflexivity |].
    right; right; right; right. exists i. reflexivity.
  - destruct (inbounds (len (j_items j)) i) eqn:Hin.
    + left. rewrite (Skip_exec_inbounds j i off Hin). cbn.
      apply (store_seek_frame i _ (set_i i j)).
    + left. rewrite (Skip_exec_oob j i off Hin). reflexivity.
  - destruct (decode_exec_cases tr ctx j)
      as [[_ ->] | [_ [-> | [err ->]]]];
      [right; left | left | left]; reflexivity.
Qed.

(** Pointers stay valid and the playlist stays a slice. *)
Lemma step_wf okoff c j : wf j -> call_ok okoff j c -> wf (exec (step c) j).
Proof.
  intros [Hptr Hlen] Hok. unfold wf.
  assert (Hmem : (length (j_mem j) <= length (j_mem (exec (step c) j)))%nat).
  { destruct (step_mem c j) as [-> | [(id & path & ->) | (i & off & p & _ & ->)]];
      rewrite ?length_app, ?length_alter; cbn; lia. }
  assert (Hmono : forall l : list nat,
             Forall (fun p : nat => (p < length (j_mem j))%nat) l ->
             Forall (fun p : nat => (p < length (j_mem (exec (step c) j)))%nat) l).
  { intros l Hl. eapply Forall_impl; [exact Hl |]. intros p Hp. cbn in *. lia. }
  destruct (step_items c j)
    as [-> | [-> | [(items & -> & ->) | [(items & -> & ->) | (i & ->)]]]].
  - split; [apply Hmono; exact Hptr | exact Hlen].
  - split; [constructor | unfold len, Go.two63; cbn; lia].
  - destruct Hok as [Hp Hl]. split; [apply Hmono; exact Hp | exact Hl].
  - destruct Hok as [Hp Hl].
    split; [apply Hmono, Forall_app; split; assumption | exact Hl].
  - split.
    + apply Hmono, Forall_app. split; [apply Forall_take | apply Forall_drop]; exact Hptr.
    + unfold len in *. rewrite length_app, length_take, length_drop. lia.
Qed.

Lemma reachable_wf okoff p0 j : reachable okoff p0 j -> wf j.
Proof.
  induction 1 as [| j c _ IH Hok].
  - split; [constructor | unfold len, Go.two63; cbn; lia].
  - exact (step_wf okoff c j IH Hok).
Qed.

Lemma reachable_run okoff p0 cs j :
  reachable okoff p0 j -> calls_ok okoff cs j -> reachable okoff p0 (run cs j).
Proof.
  revert j. induction cs as [| c cs IH]; intros j Hj Hcs; [exact Hj |].
  destruct Hcs as [Hc Hcs]. cbn. apply IH; [| exact Hcs].
  apply reachable_step; assumption.
Qed.

(** C8, amended: items are created with seek 0, and as long as every
    [Skip] is called with an offset between 0 and 9223372036 seconds, the
    seek of every item is non-negative in every reachable state: [Skip]
    is the one operation that writes a seek, and it writes its offset
    without a check. *)
Theorem seek_nonneg_invariant (p0 : P) j :
  reachable (fun offsetSecs => 0 <= offsetSecs <= 9223372036) p0 j ->
  seeks_nonneg j.
Proof.
  unfold seeks_nonneg. induction 1 as [| j c _ IH Hok]; [constructor |].
  destruct (step_mem c j) as [-> | [(id & path & ->) | (i & off & p & -> & ->)]].
  - exact IH.
  - apply Forall_app. split; [exact IH |].
    constructor; [cbn; lia | constructor].
  - destruct Hok as (_ & _ & Hoff).
    apply Forall_alter; [exact IH |].
    intros it _ _. cbn. rewrite seconds_duration_exact by lia.
    unfold Go.Second. lia.
Qed.

Lemma step_i c j :
  j_i (exec (step c) j) = j_i j
  \/ j_i (exec (step c) j) = 0
  \/ (exists i offsetSecs,
        c = CallSkip i offsetSecs /\ inbounds (len (j_items j)) i = true
        /\ j_i (exec (step c) j) = i)
  \/ (inbounds (len (j_items j)) (j_i j) = true
      /\ j_i (exec (step c) j) = Go.int64 (j_i j + 1)).
Proof.
  destruct c as [id path | items | items | i | | | | i off | v | | tr ctx | n];
    cbn [step]; try (left; reflexivity); try (right; left; reflexivity).
  - left. unfold exec, RemoveItem, write, bind, get.
    destruct (negb _); reflexivity.
  - destruct (inbounds (len (j_items j)) i) eqn:Hin.
    + right; right; left. exists i, off.
      split; [reflexivity | split; [exact Hin |]].
      rewrite (Skip_exec_inbounds j i off Hin). cbn.
      apply (store_seek_frame i _ (set_i i j)).
    + left. rewrite (Skip_exec_oob j i off Hin). reflexivity.
  - destruct (decode_exec_cases tr ctx j)
      as [[_ ->] | [Hin [-> | [err ->]]]];
      [right; left; reflexivity | right; right; right; split; [exact Hin | reflexivity] ..].
Qed.

Lemma step_count c j :
  CountReader.Count (j_pcmr (exec (step c) j)) = CountReader.Count (j_pcmr j)
  \/ CountReader.Count (j_pcmr (exec (step c) j)) = 0
  \/ exists n, CountReader.Count (j_pcmr (exec (step c) j))
               = Go.uint64 (CountReader.Count (j_pcmr j) + n).
Proof.
  destruct c as [id path | items | items | i | | | | i off | v | | tr ctx | n];
    cbn [step]; try (left; reflexivity); try (right; left; reflexivity).
  - left. unfold exec, RemoveItem, write, bind, get.
    destruct (negb _); reflexivity.
  - left. destruct (inbounds (len (j_items j)) i) eqn:Hin.
    + rewrite (Skip_exec_inbounds j i off Hin). cbn.
      f_equal. apply (store_seek_frame i _ (set_i i j)).
    + rewrite (Skip_exec_oob j i off Hin). reflexivity.
  - right; left. destruct (decode_exec_cases tr ctx j)
      as [[_ ->] | [_ [-> | [err ->]]]]; reflexivity.
  - right; right. exists n. reflexivity.
Qed.

(** The counter of the pipe is a [uint64]. *)
Lemma count_invariant okoff p0 j :
  reachable okoff p0 j -> Go.is_uint64 (CountReader.Count (j_pcmr j)).
Proof.
  induction 1 as [| j c _ IH _].
  - cbn. unfold Go.is_uint64, Go.two64. lia.
  - destruct (step_count c j) as [-> | [-> | [n ->]]].
    + exact IH.
    + unfold Go.is_uint64, Go.two64. lia.
    + unfold Go.is_uint64, Go.uint64, Go.two64. apply Z.mod_pos_bound. lia.
Qed.

(** X6: the cursor never goes below 0: it is set to 0, to an index in bounds,
    or incremented at the end of a session that found it in bounds. *)
Theorem cursor_nonneg_invariant okoff (p0 : P) j :
  reachable okoff p0 j -> 0 <= j_i j.
Proof.
  induction 1 as [| j c Hj IH _]; [cbn; lia |].
  destruct (step_i c j) as [-> | [-> | [(i & off & _ & Hin & ->) | [Hin ->]]]].
  - exact IH.
  - lia.
  - apply inbounds_spec in Hin. lia.
  - apply inbounds_spec in Hin.
    destruct (reachable_wf okoff p0 j Hj) as [_ Hlen].
    rewrite int64_id; [lia |]. unfold Go.is_int64, Go.two63 in *. lia.
Qed.

Lemma seeks_whole_invariant (p0 : P) j :
  reachable (fun offsetSecs => -9223372036 <= offsetSecs <= 9223372036) p0 j ->
  seeks_whole j.
Proof.
  unfold seeks_whole. induction 1 as [| j c _ IH Hok]; [constructor |].
  destruct (step_mem c j) as [-> | [(id & path & ->) | (i & off & p & -> & ->)]].
  - exact IH.
  - apply Forall_app. split; [exact IH |].
    constructor; [| constructor]. exists 0. cbn. lia.
  - destruct Hok as (_ & _ & Hoff).
    apply Forall_alter; [exact IH |].
    intros it _ _. exists off. split; [exact Hoff |].
    cbn. apply seconds_duration_exact. exact Hoff.
Qed.

(** X1: when the cursor is out of bounds [GetStatus()] reports the cursor,
    position 0, and the playing flag and the gain of the player. *)
Theorem GetStatus_out_of_bounds j :
  inbounds (len (j_items j)) (j_i j) = false ->
  eval GetStatus j
  = mkStatus (j_i j) (IsPlaying (j_player j)) (Volume (j_player j)) 0.
Proof.
  intros Hin. unfold eval, GetStatus, read, bind, get, ret.
  rewrite Hin. reflexivity.
Qed.

(** X2: in a state reached with offsets that do not overflow, with the cursor
    in bounds and a player that holds no more unplayed bytes than the pipe
    has counted, [GetStatus()] reports the position of the formula: the
    bytes played over 192000, plus the seconds of the seek. *)
Theorem GetStatus_position_exact (p0 : P) j :
  reachable (fun offsetSecs => -9223372036 <= offsetSecs <= 9223372036) p0 j ->
  inbounds (len (j_items j)) (j_i j) = true ->
  0 <= UnplayedBufferSize (j_player j) <= CountReader.Count (j_pcmr j) ->
  eval GetStatus j
  = mkStatus (j_i j) (IsPlaying (j_player j)) (Volume (j_player j))
      (position_formula j)
  /\ position_formula j
     = (CountReader.Count (j_pcmr j) - UnplayedBufferSize (j_player j)) / 192000
       + item_seek (deref j (j_items j !!! Z.to_nat (j_i j))) / Go.Second.
Proof.
  intros Hj Hin Hbuf.
  pose proof (count_invariant _ p0 j Hj) as Hcount.
  pose proof (seeks_whole_invariant p0 j Hj) as Hseeks.
  destruct (reachable_wf _ p0 j Hj) as [Hptr _].
  destruct (inbounds_lookup _ _ Hin) as [p Hp].
  assert (Hlt : (p < length (j_mem j))%nat).
  { rewrite Forall_forall in Hptr. apply Hptr, list_elem_of_lookup. eauto. }
  destruct (lookup_lt_is_Some_2 (j_mem j) p Hlt) as [it Hit].
  unfold seeks_whole in Hseeks. rewrite Forall_forall in Hseeks.
  destruct (Hseeks it) as (k & Hk & Hseek); [apply list_elem_of_lookup; eauto |].
  assert (Hitem : deref j (j_items j !!! Z.to_nat (j_i j)) = it).
  { unfold deref. rewrite (list_lookup_total_correct _ _ _ Hp).
    apply list_lookup_total_correct. exact Hit. }
  unfold Go.is_uint64, Go.two64 in Hcount.
  set (played := CountReader.Count (j_pcmr j) - UnplayedBufferSize (j_player j)).
  assert (Hplayed : 0 <= played < 2 ^ 64) by (unfold played; lia).
  assert (Hsecs : 0 <= played / 192000 < 2 ^ 48).
  { split; [apply Z.div_pos; lia |].
    apply Z.div_lt_upper_bound; lia. }
  assert (Hformula : position_formula j = played / 192000 + k).
  { unfold position_formula. fold played. rewrite Hitem, Hseek.
    rewrite Z.quot_mul by (unfold Go.Second; lia).
    rewrite Z.quot_div_nonneg by lia. reflexivity. }
  split.
  - unfold eval, GetStatus, read, bind, get, ret. rewrite Hin. cbn [fst negb].
    rewrite Hitem, Hseek, Hformula. f_equal.
    rewrite (uint64_id (UnplayedBufferSize (j_player j)))
      by (unfold Go.is_uint64, Go.two64; lia).
    fold played. rewrite (uint64_id played) by exact Hplayed.
    change (BitRate / 8) with 192000.
    rewrite Seconds_whole by exact Hk.
    rewrite (int64_id (played / 192000)) by (unfold Go.is_int64, Go.two63; lia).
    apply int64_id. unfold Go.is_int64, Go.two63. lia.
  - rewrite Hformula, Hitem, Hseek. fold played.
    rewrite Z.div_mul by (unfold Go.Second; lia). reflexivity.
Qed.

End Invariants.

(** ** The control loop *)

Lemma body_completes_normally (r : Loop.Received) (l : Loop.t) :
  snd (Loop.body r l) = Loop.Normal
  /\ Loop.iterations (fst (Loop.body r l)) = S (Loop.iterations l).
Proof. destruct r; split; reflexivity. Qed.

Lemma DecodeStream_keeps_running (rs : list Loop.Received) (l : Loop.t) :
  snd (Loop.DecodeStream rs l) = true
  /\ Loop.iterations (fst (Loop.DecodeStream rs l))
     = (Loop.iterations l + length rs)%nat.
Proof.
  revert l. induction rs as [| r rs IH]; intros l; cbn [Loop.DecodeStream].
  - split; [reflexivity | cbn; lia].
  - destruct (body_completes_normally r l) as [Hc Hn].
    destruct (Loop.body r l) as [l' c]. cbn in Hc, Hn. subst c.
    destruct (IH l') as [Hrun Hit]. split; [exact Hrun |].
    rewrite Hit, Hn. cbn. lia.
Qed.

(** X7: whatever the loop has received before, the iteration that receives
    [quit] fires its own context: the context created last is the one fired
    last. *)
Theorem quit_fires_token (rs : list Loop.Received) (l : Loop.t) :
  let after := fst (Loop.DecodeStream (rs ++ [Loop.RecvQuit]) l) in
  last (Loop.fired after) = Some (Loop.iterations l + length rs)%nat
  /\ Loop.iterations after = S (Loop.iterations l + length rs).
Proof.
  revert l. induction rs as [| r rs IH]; intros l.
  - cbn. rewrite last_snoc. split; f_equal; lia.
  - cbn [app Loop.DecodeStream].
    destruct (body_completes_normally r l) as [Hc Hn].
    destruct (Loop.body r l) as [l' c]. cbn in Hc, Hn. subst c.
    destruct (IH l') as [Hlast Hit]. cbv zeta. rewrite Hlast, Hit, Hn.
    cbn [length]. split; f_equal; lia.
Qed.

(** C3, as the code runs: the receipt of [quit] does not end the loop of
    [DecodeStream].  The [break] of that case leaves the [select] only, so
    the loop goes through one more iteration for every later receipt,
    whatever it is.  After [SetItems], [Quit] and [SetItems] again, the loop
    has received [next], [quit] and [next]: it is still running, it has
    fired the context of its second iteration, and it has started a decode
    session in the first and in the third. *)
Theorem DecodeStream_runs_on_after_quit :
  (forall (rs : list Loop.Received) (l : Loop.t),
      let after := Loop.DecodeStream (Loop.RecvQuit :: rs) l in
      snd after = true
      /\ Loop.iterations (fst after) = (Loop.iterations l + 1 + length rs)%nat)
  /\ (let j := run [CallNewPlaylistItem 0 "a"%string; CallSetItems [0%nat];
                    CallQuit; CallSetItems [0%nat]] (New newMock) in
      j_sent j = [next; quit; next]
      /\ Loop.DecodeStream (map Loop.receipt (j_sent j)) Loop.init
         = (Loop.Make 3 [1%nat] [0%nat; 2%nat], true)).
Proof.
  split; [| split; reflexivity].
  intros rs l after. subst after.
  destruct (DecodeStream_keeps_running (Loop.RecvQuit :: rs) l) as [Hrun Hit].
  split; [exact Hrun |]. rewrite Hit. cbn. lia.
Qed.

(** ** Runs on the players of the tests and of the sink *)

(** C1, as the code runs: [SetItems] leaves the cursor where it is.  With
    the cursor at 1 after [Skip(1, 0)], [SetItems] of two other items
    leaves the cursor at 1 and [Current()] returns the second of them;
    [SetItems] of a single item leaves the cursor out of bounds. *)
Theorem SetItems_keeps_cursor :
  let j := run [CallNewPlaylistItem 0 "a"%string; CallNewPlaylistItem 1 "b"%string;
                CallNewPlaylistItem 2 "c"%string; CallNewPlaylistItem 3 "d"%string;
                CallSetItems [0; 1]; CallSkip 1 0]%nat (New newMock) in
  let j' := exec (SetItems [2; 3]%nat) j in
  j_i j = 1
  /\ j_items j' = [2; 3]%nat
  /\ j_i j' = 1
  /\ eval Current j' = (Some 3%nat, None)
  /\ eval Current (exec (SetItems [2%nat]) j) = (None, Some ErrOOB).
Proof. cbv zeta. repeat split. Qed.

(** C2, as the code runs: the subtraction is made in [uint64].  After the
    end of a decode session the counter of the pipe is 0 while the sink
    still holds the 8192 bytes it took; the cursor is in bounds, the
    formula gives 0, and [GetStatus()] reports 96076792050570 seconds. *)
Theorem GetStatus_position_wraps :
  let j := run [CallNewPlaylistItem 0 "a"%string; CallNewPlaylistItem 1 "b"%string;
                CallSetItems [0; 1]%nat; CallPlay; PlayerReads 8192;
                SessionDecode (fun _ _ _ => None) 0%nat] (New newSink) in
  inbounds (len (j_items j)) (j_i j) = true
  /\ CountReader.Count (j_pcmr j) = 0
  /\ UnplayedBufferSize (j_player j) = 8192
  /\ position_formula j = 0
  /\ Position (eval GetStatus j) = 96076792050570.
Proof. cbv zeta. repeat split. Qed.

Lemma one_item_reachable (okoff : Z -> Prop) : reachable okoff newMock one_item.
Proof.
  apply (reachable_run okoff newMock _ (New newMock)); [constructor |].
  cbn. repeat split. repeat constructor.
Qed.

Lemma one_item_wf : wf one_item.
Proof. exact (reachable_wf (fun _ => True) newMock _ (one_item_reachable _)). Qed.

(** C5, counterexample: 9223372037 is an [int], but that many seconds are
    more nanoseconds than an [int64] holds: [Skip(0, 9223372037)] leaves a
    seek of -9223372036709551616 ns. *)
Lemma Skip_offset_overflows :
  wf one_item
  /\ Go.is_int64 9223372037
  /\ item_seek <$> j_mem (exec (Skip 0 9223372037) one_item) !! 0%nat
     = Some (-9223372036709551616)
  /\ ~ Skip_post one_item 0 9223372037 (exec (Skip 0 9223372037) one_item).
Proof.
  split; [exact one_item_wf |].
  split; [unfold Go.is_int64, Go.two63; lia |].
  split; [reflexivity |].
  unfold Skip_post. cbn [inbounds]. intros (_ & (p & Hp & Hseek) & _).
  cbn in Hp. injection Hp as <-. vm_compute in Hseek. discriminate.
Qed.

(** C8, counterexample: after [Skip(0, -1)] the seek of the item is -1 s. *)
Lemma Skip_negative_offset :
  let j := exec (Skip 0 (-1)) one_item in
  reachable Go.is_int64 newMock j
  /\ item_seek <$> j_mem j !! 0%nat = Some (-1000000000)
  /\ ~ seeks_nonneg j.
Proof.
  cbv zeta. split; [| split].
  - apply (reachable_step Go.is_int64 newMock one_item (CallSkip 0 (-1))).
    + apply one_item_reachable.
    + cbn. unfold Go.is_int64, Go.two63. lia.
  - reflexivity.
  - unfold seeks_nonneg. intros Hall.
    apply Forall_cons_1 in Hall as [Hneg _]. vm_compute in Hneg.
    apply Hneg. reflexivity.
Qed.

(** ** The theorems at concrete states *)

Lemma decode_error_advances_witness :
  let failing : Transcoder := fun _ _ _ => Some (ErrTranscode "exit status 1"%string) in
  let j' := exec (decode failing 0%nat) one_item in
  CountReader.Count (j_pcmr j') = 0
  /\ j_i j' = 0 + 1
  /\ j_sent j' = [next] ++ [next]
  /\ j_items j' = [0%nat]
  /\ (forall succeeding : Transcoder,
        succeeding 0%nat (WithSeek_PCM16le 0) "a"%string = None ->
        j' = set_log ([] ++ [ErrTranscode "exit status 1"%string])
               (exec (decode succeeding 0%nat) one_item)).
Proof.
  apply (decode_error_advances
           (fun _ _ _ => Some (ErrTranscode "exit status 1"%string)) 0%nat one_item
           (WithSeek_PCM16le 0) "a"%string (ErrTranscode "exit status 1"%string)).
  - vm_compute. reflexivity.
  - reflexivity.
  - reflexivity.
Defined.

Lemma Skip_sets_cursor_and_seek_witness :
  Skip_post one_item 0 2 (exec (Skip 0 2) one_item)
  /\ exec (Skip 5 9223372037) one_item = one_item.
Proof.
  split.
  - apply (proj2 (Skip_sets_cursor_and_seek one_item 0 2)).
    + exact one_item_wf.
    + lia.
  - apply (proj1 (Skip_sets_cursor_and_seek one_item 5 9223372037)).
    reflexivity.
Defined.

Lemma seek_nonneg_invariant_witness :
  seeks_nonneg (exec (Skip 0 2) one_item).
Proof.
  apply (seek_nonneg_invariant newMock).
  apply (reachable_step _ newMock one_item (CallSkip 0 2)).
  - apply one_item_reachable.
  - cbn. unfold Go.is_int64, Go.two63. lia.
Defined.

Lemma skipped_2s_read_1s_reachable :
  reachable (fun offsetSecs => -9223372036 <= offsetSecs <= 9223372036)
    newMock skipped_2s_read_1s.
Proof.
  apply (reachable_run _ newMock _ (New newMock)); [constructor |].
  calls_ok_tac.
Qed.

Lemma SetItems_then_Current_witness :
  eval Current (exec (SetItems [5; 7]%nat) (New newMock)) = (Some 5%nat, None).
Proof. apply (SetItems_then_Current (New newMock) 5%nat [7%nat]). reflexivity. Defined.

Lemma GetStatus_out_of_bounds_witness :
  eval GetStatus (New newMock) = mkStatus 0 false (Go.float64_of_int 1) 0.
Proof. exact (GetStatus_out_of_bounds (New newMock) eq_refl). Defined.

Lemma GetStatus_position_exact_witness :
  Position (eval GetStatus skipped_2s_read_1s) = 192000 / 192000 + 2.
Proof.
  destruct (GetStatus_position_exact newMock skipped_2s_read_1s) as [Hstatus Hformula].
  - exact skipped_2s_read_1s_reachable.
  - reflexivity.
  - change (0 <= 0 <= 192000). lia.
  - rewrite Hstatus. cbn [Position]. rewrite Hformula. reflexivity.
Defined.

Lemma cursor_nonneg_invariant_witness : 0 <= j_i skipped_2s_read_1s.
Proof.
  exact (cursor_nonneg_invariant _ newMock _ skipped_2s_read_1s_reachable).
Defined.

Lemma Current_item_iff_inbounds_witness :
  eval Current one_item = (Some 0%nat, None)
  /\ eval Current (New newMock) = (None, Some ErrOOB).
Proof.
  split.
  - destruct (Current_item_iff_inbounds one_item) as (Hiff & Hitem & _).
    destruct (proj2 Hiff) as [p Hp].
    + change (0 < 1 /\ 0 <= 0 < 1). lia.
    + pose proof (Hitem p Hp) as Hlook. cbn in Hlook.
      injection Hlook as <-. exact Hp.
  - destruct (Current_item_iff_inbounds (New newMock)) as (_ & _ & _ & Hempty).
    apply Hempty. reflexivity.
Defined.

Lemma AppendItems_frame_witness :
  j_items (exec (AppendItems [0%nat]) one_item) = [0; 0]%nat
  /\ j_sent (exec (AppendItems [0%nat]) one_item) = [next]
  /\ j_sent (exec (Skip 0 2) one_item) = [next; next].
Proof.
  destruct (AppendItems_frame one_item [0%nat])
    as (Hitems & _ & _ & _ & Hsent & _ & _ & Hskip).
  split; [exact Hitems | split; [exact Hsent |]].
  exact (Hskip 0 2 eq_refl).
Defined.

(** ** Sessions in a row, and the position after a skip and after reads *)

Section Playing.

Context {P : Type} `{Player P}.

Implicit Types (j : Jukebox P).

Lemma session_tail_fields j :
  j_items (session_tail j) = j_items j
  /\ j_i (session_tail j) = Go.int64 (j_i j + 1)
  /\ j_sent (session_tail j) = j_sent j ++ [next]
  /\ j_player (session_tail j) = j_player j
  /\ CountReader.Count (j_pcmr (session_tail j)) = 0.
Proof. repeat split. Qed.

(** X8: decode sessions run a playlist to its end.  From a cursor [i] on a
    list of [n] items, the [n - i] sessions that find the cursor in bounds
    each advance it and send [next], whatever their transcoder returns; the
    session after them finds it out of bounds, clears the list, puts the
    cursor back to 0, resets the player and the pipe, and sends nothing: the
    loop is left idle. *)
Theorem sessions_play_to_the_end (ss : list (Transcoder * nat)) j :
  0 <= j_i j <= len (j_items j) ->
  len (j_items j) < Go.two63 ->
  length ss = S (Z.to_nat (len (j_items j) - j_i j)) ->
  let j' := run (sessions_run ss) j in
  j_items j' = []
  /\ j_i j' = 0
  /\ CountReader.Count (j_pcmr j') = 0
  /\ j_player j' = Reset (j_player j)
  /\ j_sent j' = j_sent j ++ replicate (Z.to_nat (len (j_items j) - j_i j)) next.
Proof.
  intros Hi Hlen Hss. cbv zeta.
  remember (Z.to_nat (len (j_items j) - j_i j)) as k eqn:Hk.
  revert ss j Hi Hlen Hss Hk.
  induction k as [| k IH]; intros ss j Hi Hlen Hss Hk.
  - destruct ss as [| [tr ctx] [| s ss]]; try discriminate. cbn.
    assert (Hin : inbounds (len (j_items j)) (j_i j) = false).
    { destruct (inbounds _ _) eqn:Hin; [| reflexivity].
      apply inbounds_spec in Hin. lia. }
    rewrite (decode_exec_oob tr ctx j Hin). cbn. rewrite app_nil_r.
    repeat split.
  - destruct ss as [| [tr ctx] ss]; [discriminate |].
    injection Hss as Hss.
    change (run (sessions_run ((tr, ctx) :: ss)) j)
      with (run (sessions_run ss) (exec (step (SessionDecode tr ctx)) j)).
    assert (Hin : inbounds (len (j_items j)) (j_i j) = true).
    { apply inbounds_spec. lia. }
    set (j1 := exec (step (SessionDecode tr ctx)) j).
    assert (Hj1 : j_items j1 = j_items j /\ j_i j1 = j_i j + 1
                  /\ j_sent j1 = j_sent j ++ [next] /\ j_player j1 = j_player j).
    { assert (Hi1 : Go.int64 (j_i j + 1) = j_i j + 1).
      { apply int64_id. unfold Go.is_int64, Go.two63 in *. lia. }
      subst j1. cbn [step].
      destruct (decode_exec_cases tr ctx j)
        as [[Hoob _] | [_ [-> | [err ->]]]]; [congruence | ..];
        cbn; rewrite Hi1; repeat split. }
    destruct Hj1 as (Hitems & Hcur & Hsent & Hplayer).
    destruct (IH ss j1) as (H1 & H2 & H3 & H4 & H5);
      rewrite ?Hitems, ?Hcur; try lia.
    rewrite H1, H2, H3, H4, H5, Hplayer, Hsent.
    repeat split. rewrite <- app_assoc. reflexivity.
Qed.

(** The report of [GetStatus()] when the current item has a seek of [k]
    whole seconds and the subtraction does not wrap. *)
Lemma GetStatus_whole j (p : ptr) (it : PlaylistItem) (k : Z) :
  inbounds (len (j_items j)) (j_i j) = true ->
  j_items j !! Z.to_nat (j_i j) = Some p ->
  j_mem j !! p = Some it ->
  item_seek it = k * Go.Second ->
  -9223372036 <= k <= 9223372036 ->
  0 <= UnplayedBufferSize (j_player j) <= CountReader.Count (j_pcmr j) ->
  CountReader.Count (j_pcmr j) < Go.two64 ->
  eval GetStatus j
  = mkStatus (j_i j) (IsPlaying (j_player j)) (Volume (j_player j))
      ((CountReader.Count (j_pcmr j) - UnplayedBufferSize (j_player j)) / 192000 + k).
Proof.
  intros Hin Hp Hit Hseek Hk Hbuf Hcount.
  assert (Hitem : deref j (j_items j !!! Z.to_nat (j_i j)) = it).
  { unfold deref. rewrite (list_lookup_total_correct _ _ _ Hp).
    apply list_lookup_total_correct. exact Hit. }
  unfold Go.two64 in Hcount.
  set (played := CountReader.Count (j_pcmr j) - UnplayedBufferSize (j_player j)).
  assert (Hplayed : 0 <= played < 2 ^ 64) by (unfold played; lia).
  assert (Hsecs : 0 <= played / 192000 < 2 ^ 48).
  { split; [apply Z.div_pos; lia | apply Z.div_lt_upper_bound; lia]. }
  unfold eval, GetStatus, read, bind, get, ret. rewrite Hin. cbn [fst negb].
  rewrite Hitem, Hseek. f_equal.
  rewrite (uint64_id (UnplayedBufferSize (j_player j)))
    by (unfold Go.is_uint64, Go.two64; lia).
  fold played. rewrite (uint64_id played) by exact Hplayed.
  change (BitRate / 8) with 192000.
  rewrite Seconds_whole by exact Hk.
  rewrite (int64_id (played / 192000)) by (unfold Go.is_int64, Go.two63; lia).
  apply int64_id. unfold Go.is_int64, Go.two63. lia.
Qed.

(** X9: the status right after a skip.  In a reachable state, after
    [Skip(i, offsetSecs)] at an index in bounds with an offset that does not
    overflow, [GetStatus()] reports the index [i], the playing flag and the
    gain of the player after [Play], and as position the seconds already
    counted by the pipe plus [offsetSecs]: the skip does not reset the
    counter of the pipe. *)
Theorem Skip_then_GetStatus okoff (p0 : P) j (i offsetSecs : Z) :
  reachable okoff p0 j ->
  inbounds (len (j_items j)) i = true ->
  -9223372036 <= offsetSecs <= 9223372036 ->
  0 <= UnplayedBufferSize (Play (j_player j)) <= CountReader.Count (j_pcmr j) ->
  eval GetStatus (exec (Skip i offsetSecs) j)
  = mkStatus i (IsPlaying (Play (j_player j))) (Volume (Play (j_player j)))
      ((CountReader.Count (j_pcmr j) - UnplayedBufferSize (Play (j_player j))) / 192000
       + offsetSecs).
Proof.
  intros Hj Hin Hoff Hbuf.
  pose proof (count_invariant okoff p0 j Hj) as Hcount.
  destruct (reachable_wf okoff p0 j Hj) as [Hptr _].
  destruct (inbounds_lookup _ _ Hin) as [p Hp].
  assert (Hlt : (p < length (j_mem j))%nat).
  { rewrite Forall_forall in Hptr. apply Hptr, list_elem_of_lookup. eauto. }
  set (j' := exec (Skip i offsetSecs) j).
  assert (Hfields : j_i j' = i /\ j_items j' = j_items j
                    /\ j_player j' = Play (j_player j) /\ j_pcmr j' = j_pcmr j).
  { subst j'. rewrite (Skip_exec_inbounds j i offsetSecs Hin). cbn.
    destruct (store_seek_frame i (Go.seconds_duration offsetSecs) (set_i i j))
      as (Hc & Hpl & _ & Hcur & Hit & _).
    rewrite Hc, Hpl, Hcur, Hit. repeat split. }
  destruct Hfields as (Hcur & Hitems & Hplayer & Hpcmr).
  assert (Hseek : item_seek <$> j_mem j' !! p = Some (offsetSecs * Go.Second)).
  { subst j'. rewrite (Skip_seek j i offsetSecs p Hin Hp Hlt).
    rewrite seconds_duration_exact by exact Hoff. reflexivity. }
  destruct (j_mem j' !! p) as [it |] eqn:Hit; [| discriminate].
  injection Hseek as Hseek.
  rewrite (GetStatus_whole j' p it offsetSecs);
    rewrite ?Hcur, ?Hitems, ?Hplayer, ?Hpcmr; try assumption.
  - reflexivity.
  - exact (proj2 Hcount).
Qed.

End Playing.

(** ** Reads of the player and the reported position *)

Section Reading.

Context {P : Type} `{Player P}.

Implicit Types (j : Jukebox P).

Lemma PlayerRead_fields j (n : Z) :
  let j' := exec (PlayerRead n) j in
  j_pcmr j' = CountReader.Read n (j_pcmr j)
  /\ j_player j' = Feed n (j_player j)
  /\ j_i j' = j_i j /\ j_items j' = j_items j /\ j_mem j' = j_mem j
  /\ j_sent j' = j_sent j.
Proof. repeat split. Qed.

(** The current item of a reachable state, with its seek in seconds. *)
Lemma current_item_whole (p0 : P) j :
  reachable (fun offsetSecs => -9223372036 <= offsetSecs <= 9223372036) p0 j ->
  inbounds (len (j_items j)) (j_i j) = true ->
  exists (p : ptr) (it : PlaylistItem) (k : Z),
    j_items j !! Z.to_nat (j_i j) = Some p /\ j_mem j !! p = Some it
    /\ item_seek it = k * Go.Second /\ -9223372036 <= k <= 9223372036.
Proof.
  intros Hj Hin.
  pose proof (seeks_whole_invariant p0 j Hj) as Hseeks.
  destruct (reachable_wf _ p0 j Hj) as [Hptr _].
  destruct (inbounds_lookup _ _ Hin) as [p Hp].
  assert (Hlt : (p < length (j_mem j))%nat).
  { rewrite Forall_forall in Hptr. apply Hptr, list_elem_of_lookup. eauto. }
  destruct (lookup_lt_is_Some_2 (j_mem j) p Hlt) as [it Hit].
  unfold seeks_whole in Hseeks. rewrite Forall_forall in Hseeks.
  destruct (Hseeks it) as (k & Hk & Hseek); [apply list_elem_of_lookup; eauto |].
  exists p, it, k. repeat split; assumption || lia.
Qed.

(** X10: within a session the reported position never goes back.  In a
    reachable state with the cursor in bounds, when the player takes [n]
    more bytes from the pipe and afterwards holds at most [n] more unplayed
    bytes than before, the position that [GetStatus()] reports does not
    decrease. *)
Theorem position_monotone_in_reads (p0 : P) j (n : Z) :
  reachable (fun offsetSecs => -9223372036 <= offsetSecs <= 9223372036) p0 j ->
  inbounds (len (j_items j)) (j_i j) = true ->
  0 <= n ->
  CountReader.Count (j_pcmr j) + n < Go.two64 ->
  0 <= UnplayedBufferSize (j_player j) <= CountReader.Count (j_pcmr j) ->
  0 <= UnplayedBufferSize (Feed n (j_player j)) <= UnplayedBufferSize (j_player j) + n ->
  Position (eval GetStatus j) <= Position (eval GetStatus (exec (PlayerRead n) j)).
Proof.
  intros Hj Hin Hn Hsum Hbuf Hfeed.
  destruct (current_item_whole p0 j Hj Hin) as (p & it & k & Hp & Hit & Hseek & Hk).
  pose proof (count_invariant _ p0 j Hj) as [Hc0 _].
  destruct (PlayerRead_fields j n) as (Hpcmr & Hplayer & Hcur & Hitems & Hmem & _).
  assert (Hcount : CountReader.Count (j_pcmr (exec (PlayerRead n) j))
                   = CountReader.Count (j_pcmr j) + n).
  { rewrite Hpcmr. cbn. apply uint64_id. unfold Go.is_uint64. lia. }
  rewrite (GetStatus_whole j p it k) by (assumption || lia).
  rewrite (GetStatus_whole (exec (PlayerRead n) j) p it k);
    rewrite ?Hcur, ?Hitems, ?Hmem, ?Hplayer, ?Hcount; try assumption; try lia.
  cbn [Position]. apply Z.add_le_mono_r, Z.div_le_mono; lia.
Qed.

(** X11: a second of audio is a second of position.  In a reachable state
    (offsets of [Skip] that do not overflow) with the cursor in bounds,
    where the unplayed buffer of the player is between 0 and the count of
    the pipe and stays the same over the read, reading [secsToBytes(s)]
    bytes for [s >= 0], with the count staying below 2^63, raises the
    position that [GetStatus()] reports by exactly [s]. *)
Theorem read_seconds_advance_position (p0 : P) j (s : Z) :
  reachable (fun offsetSecs => -9223372036 <= offsetSecs <= 9223372036) p0 j ->
  inbounds (len (j_items j)) (j_i j) = true ->
  0 <= s ->
  CountReader.Count (j_pcmr j) + 192000 * s < Go.two63 ->
  0 <= UnplayedBufferSize (j_player j) <= CountReader.Count (j_pcmr j) ->
  UnplayedBufferSize (Feed (secsToBytes s) (j_player j))
  = UnplayedBufferSize (j_player j) ->
  Position (eval GetStatus (exec (PlayerRead (secsToBytes s)) j))
  = Position (eval GetStatus j) + s.
Proof.
  intros Hj Hin Hs Hsum Hbuf Hfeed.
  destruct (current_item_whole p0 j Hj Hin) as (p & it & k & Hp & Hit & Hseek & Hk).
  pose proof (count_invariant _ p0 j Hj) as [Hc0 _].
  assert (Hbytes : secsToBytes s = 192000 * s).
  { unfold secsToBytes. change (BitRate / 8) with 192000.
    rewrite int64_id; [lia |]. unfold Go.is_int64, Go.two63 in *. lia. }
  rewrite Hbytes in *.
  destruct (PlayerRead_fields j (192000 * s))
    as (Hpcmr & Hplayer & Hcur & Hitems & Hmem & _).
  assert (Hcount : CountReader.Count (j_pcmr (exec (PlayerRead (192000 * s)) j))
                   = CountReader.Count (j_pcmr j) + 192000 * s).
  { rewrite Hpcmr. cbn. apply uint64_id.
    unfold Go.is_uint64, Go.two64, Go.two63 in *. lia. }
  rewrite (GetStatus_whole j p it k)
    by (assumption || (unfold Go.two64, Go.two63 in *; lia)).
  rewrite (GetStatus_whole (exec (PlayerRead (192000 * s)) j) p it k);
    rewrite ?Hcur, ?Hitems, ?Hmem, ?Hplayer, ?Hcount, ?Hfeed; try assumption;
    try (unfold Go.two64, Go.two63 in *; lia).
  cbn [Position].
  replace (CountReader.Count (j_pcmr j) + 192000 * s - UnplayedBufferSize (j_player j))
    with (CountReader.Count (j_pcmr j) - UnplayedBufferSize (j_player j) + s * 192000)
    by lia.
  rewrite Z.div_add by lia. lia.
Qed.

End Reading.

(** ** The engine on the mock player of the tests *)

Lemma ReadN_loop_step (deliver : nat -> Z -> Z) (to read : Z) (fuel k : nat)
    (j : Jukebox mockPlayer) :
  read < to ->
  let n := deliver k (go_min (Go.int64 (to - read)) (Z.shiftl 2 14)) in
  ReadN_loop (S fuel) deliver to read k j
  = ReadN_loop fuel deliver to (Go.int64 (read + n)) (S k) (exec (PlayerRead n) j).
Proof.
  intros Hlt. cbn [ReadN_loop]. apply Z.ltb_lt in Hlt. rewrite Hlt. reflexivity.
Qed.

Lemma ReadN_loop_reads (deliver : nat -> Z -> Z) (to : Z) (fuel : nat) :
  (forall k req, 1 <= req -> 1 <= deliver k req <= req) ->
  0 <= to < Go.two63 ->
  forall (read : Z) (k : nat) (j : Jukebox mockPlayer),
    0 <= read <= to ->
    (Z.to_nat (to - read) < fuel)%nat ->
    Go.is_uint64 (CountReader.Count (j_pcmr j)) ->
    let r := ReadN_loop fuel deliver to read k j in
    fst r = Some tt
    /\ CountReader.Count (j_pcmr (snd r))
       = Go.uint64 (CountReader.Count (j_pcmr j) + (to - read))
    /\ j_player (snd r) = j_player j /\ j_i (snd r) = j_i j
    /\ j_items (snd r) = j_items j /\ j_sent (snd r) = j_sent j
    /\ j_mem (snd r) = j_mem j.
Proof.
  intros Hdeliver Hto.
  induction fuel as [| fuel IH]; intros read k j Hread Hfuel Hcount; [lia |].
  cbv zeta. destruct (Z.lt_ge_cases read to) as [Hlt | Hge].
  - rewrite (ReadN_loop_step deliver to read fuel k j Hlt).
    set (req := go_min (Go.int64 (to - read)) (Z.shiftl 2 14)).
    assert (Hreq : 1 <= req <= to - read).
    { unfold req, go_min. change (Z.shiftl 2 14) with 32768.
      rewrite int64_id by (unfold Go.is_int64, Go.two63 in *; lia).
      destruct (to - read <? 32768) eqn:Hm;
        [apply Z.ltb_lt in Hm | apply Z.ltb_ge in Hm]; lia. }
    pose proof (Hdeliver k req (proj1 Hreq)) as Hn.
    set (n := deliver k req) in *.
    rewrite (int64_id (read + n)) by (unfold Go.is_int64, Go.two63 in *; lia).
    destruct (IH (read + n) (S k) (exec (PlayerRead n) j))
      as (He & Hc & Hp & Hi & Hit & Hs & Hmem).
    + lia.
    + lia.
    + cbn. unfold Go.is_uint64, Go.uint64, Go.two64. apply Z.mod_pos_bound. lia.
    + rewrite He, Hc, Hp, Hi, Hit, Hs, Hmem. split; [reflexivity |].
      split; [| repeat split].
      cbn. unfold Go.uint64, CountReader.Count. rewrite Zplus_mod_idemp_l.
      f_equal. lia.
  - assert (read = to) by lia. subst read.
    destruct fuel; cbn [ReadN_loop]; rewrite Z.ltb_irrefl; cbn;
      rewrite Z.sub_diag, Z.add_0_r, (uint64_id _ Hcount); repeat split.
Qed.

(** X12: [ReadN(to)] makes the mock player take exactly [to] bytes,
    however the pipe cuts them up.  When every [Read] returns at least one
    byte and at most the buffer it was given, the loop ends (fuel of more
    than [to] iterations covers it), the counter of the pipe has advanced by
    [to], and cursor, playlist, player and channels are as before. *)
Theorem ReadN_reads_exactly (deliver : nat -> Z -> Z) (to : Z) (fuel : nat)
    (j : Jukebox mockPlayer) :
  (forall k req, 1 <= req -> 1 <= deliver k req <= req) ->
  0 <= to < Go.two63 ->
  (Z.to_nat to < fuel)%nat ->
  Go.is_uint64 (CountReader.Count (j_pcmr j)) ->
  let j' := exec (ReadN fuel deliver to) j in
  eval (ReadN fuel deliver to) j = Some tt
  /\ CountReader.Count (j_pcmr j') = Go.uint64 (CountReader.Count (j_pcmr j) + to)
  /\ j_player j' = j_player j /\ j_i j' = j_i j /\ j_items j' = j_items j
  /\ j_sent j' = j_sent j /\ j_mem j' = j_mem j.
Proof.
  intros Hdeliver Hto Hfuel Hcount. cbv zeta. unfold ReadN, eval, exec.
  pose proof (ReadN_loop_reads deliver to fuel Hdeliver Hto 0 0%nat j) as Hloop.
  rewrite Z.sub_0_r in Hloop. apply Hloop; [lia | exact Hfuel | exact Hcount].
Qed.

Lemma GetStatus_Gain {P : Type} `{Player P} (j : Jukebox P) :
  Gain (eval GetStatus j) = Volume (j_player j)
  /\ Playing (eval GetStatus j) = IsPlaying (j_player j)
  /\ CurrentIndex (eval GetStatus j) = j_i j.
Proof.
  unfold eval, GetStatus, read, bind, get, ret.
  destruct (negb _); repeat split.
Qed.

Lemma step_mock_gain (c : Call) (j : Jukebox mockPlayer) :
  mock_gain (j_player (exec (step c) j))
  = match c with CallSetGain v => v | _ => mock_gain (j_player j) end.
Proof.
  destruct c as [id path | items | items | i | | | | i off | v | | tr ctx | n];
    cbn [step]; try reflexivity.
  - unfold exec, RemoveItem, write, bind, get. destruct (negb _); reflexivity.
  - destruct (inbounds (len (j_items j)) i) eqn:Hin.
    + rewrite (Skip_exec_inbounds j i off Hin). cbn.
      destruct (store_seek_frame i (Go.seconds_duration off) (set_i i j))
        as (_ & -> & _). reflexivity.
    + rewrite (Skip_exec_oob j i off Hin). reflexivity.
  - destruct (decode_exec_cases tr ctx j)
      as [[_ ->] | [_ [-> | [err ->]]]]; reflexivity.
Qed.

(** X13: on the mock player the gain is the one of the last [SetGain].
    After any run of calls, sessions and reads, [GetGain()] and the gain of
    [GetStatus()] are the argument of the last [SetGain] of the run, or the
    gain before the run when it has none: no other operation, not even the
    reset of the player by [ClearItems], touches it. *)
Theorem gain_is_last_SetGain (cs : list Call) (j : Jukebox mockPlayer) :
  eval GetGain (run cs j) = last_gain cs (eval GetGain j)
  /\ Gain (eval GetStatus (run cs j)) = last_gain cs (eval GetGain j).
Proof.
  assert (Hgain : forall cs j, mock_gain (j_player (run cs j))
                               = last_gain cs (mock_gain (j_player j))).
  { clear. induction cs as [| c cs IH]; intros j; [reflexivity |].
    change (run (c :: cs) j) with (run cs (exec (step c) j)).
    rewrite IH, step_mock_gain. unfold last_gain. cbn [fold_left].
    destruct c; reflexivity. }
  destruct (GetStatus_Gain (run cs j)) as [-> _].
  split; exact (Hgain cs j).
Qed.

(** ** The items in the store, and removal after an append *)

Section Store.

Context {P : Type} `{Player P}.

Implicit Types (j : Jukebox P).

Lemma step_keeps_item (c : Call) j (p : ptr) (it : PlaylistItem) :
  j_mem j !! p = Some it ->
  exists it', j_mem (exec (step c) j) !! p = Some it'
              /\ item_id it' = item_id it /\ item_path it' = item_path it
              /\ ((forall i offsetSecs, c <> CallSkip i offsetSecs) -> it' = it).
Proof.
  intros Hit.
  destruct (step_mem c j) as [-> | [(id & path & ->) | (i & off & q & -> & ->)]].
  - exists it. repeat split. exact Hit.
  - exists it. repeat split.
    rewrite lookup_app_l by (apply lookup_lt_is_Some; eauto). exact Hit.
  - destruct (decide (q = p)) as [-> | Hne].
    + exists (set_seek (Go.seconds_duration off) it).
      rewrite list_lookup_alter_eq, Hit. repeat split.
      intros Hno. destruct (Hno i off). reflexivity.
    + exists it. rewrite list_lookup_alter_ne by exact Hne. repeat split. exact Hit.
Qed.

(** X14: an item keeps its id and its path for ever, and its seek as long
    as no [Skip] is called.  Whatever the run, the item behind a pointer is
    still there afterwards with the same id and the same path; when the run
    has no call of [Skip] the item is unchanged. *)
Theorem items_change_only_by_Skip (cs : list Call) j (p : ptr) (it : PlaylistItem) :
  j_mem j !! p = Some it ->
  exists it', j_mem (run cs j) !! p = Some it'
              /\ ID it' = ID it /\ Path it' = Path it
              /\ (Forall (fun c => forall i offsetSecs, c <> CallSkip i offsetSecs) cs ->
                  it' = it).
Proof.
  revert j it. induction cs as [| c cs IH]; intros j it Hit.
  - exists it. repeat split. exact Hit.
  - destruct (step_keeps_item c j p it Hit) as (it1 & Hit1 & Hid1 & Hpath1 & Hsame1).
    destruct (IH (exec (step c) j) it1 Hit1) as (it' & Hit' & Hid & Hpath & Hsame).
    exists it'. unfold ID, Path in *.
    split; [exact Hit' |]. split; [congruence |]. split; [congruence |].
    intros Hall. apply Forall_cons_1 in Hall as [Hc Hcs].
    rewrite (Hsame Hcs). exact (Hsame1 Hc).
Qed.

(** X15: removing what was just appended gives the playlist back.  After
    [AppendItems] of one item, [RemoveItem] at the length the list had
    before leaves the contents as they were; so does, for any list [l1] and
    [l2], removal at index [len(l1)] from [l1 ++ [x] ++ l2], which leaves
    [l1 ++ l2]. *)
Theorem RemoveItem_undoes_AppendItems j (p : ptr) :
  j_items (exec (RemoveItem (len (j_items j))) (exec (AppendItems [p]) j))
  = j_items j
  /\ (forall (l1 l2 : list ptr) (x : ptr),
        j_items j = l1 ++ x :: l2 ->
        j_items (exec (RemoveItem (len l1)) j) = l1 ++ l2).
Proof.
  assert (Hsplit : forall j (l1 l2 : list ptr) (x : ptr),
             j_items j = l1 ++ x :: l2 ->
             j_items (exec (RemoveItem (len l1)) j) = l1 ++ l2).
  { clear. intros j l1 l2 x Hitems.
    unfold exec, RemoveItem, write, bind, get.
    assert (Hin : inbounds (len (j_items j)) (len l1) = true).
    { apply inbounds_spec. rewrite Hitems. unfold len.
      rewrite length_app. cbn [length]. lia. }
    rewrite Hin. cbn. rewrite Hitems. unfold len.
    rewrite Nat2Z.id.
    replace (Z.to_nat (Z.of_nat (length l1) + 1)) with (S (length l1)) by lia.
    rewrite take_app_length.
    change (l1 ++ x :: l2) with (l1 ++ [x] ++ l2).
    rewrite app_assoc.
    replace (S (length l1)) with (length (l1 ++ [x]))
      by (rewrite length_app; cbn; lia).
    rewrite drop_app_length. reflexivity. }
  split; [| exact (Hsplit j)].
  rewrite (Hsplit (exec (AppendItems [p]) j) (j_items j) [] p) by reflexivity.
  apply app_nil_r.
Qed.

End Store.

(** ** The contexts of the loop *)

Lemma DecodeStream_contexts (rs : list Loop.Received) (l : Loop.t) :
  Forall (fun c => (c < Loop.iterations l)%nat) (Loop.fired l ++ Loop.sessions l) ->
  (forall c, c ∈ Loop.sessions l -> c ∉ Loop.fired l) ->
  let after := fst (Loop.DecodeStream rs l) in
  (forall c, c ∈ Loop.sessions after -> c ∉ Loop.fired after)
  /\ length (Loop.sessions after)
     = (length (Loop.sessions l) + length (List.filter is_next rs))%nat
  /\ (length (Loop.fired after) + length (Loop.sessions after)
      = length (Loop.fired l) + length (Loop.sessions l) + length rs)%nat.
Proof.
  revert l. induction rs as [| r rs IH]; intros l Hlt Hdis; cbv zeta.
  - cbn. split; [exact Hdis | lia].
  - cbn [Loop.DecodeStream].
    destruct (body_completes_normally r l) as [Hc Hn].
    destruct (Loop.body r l) as [l' c] eqn:Hbody. cbn in Hc, Hn. subst c.
    apply Forall_app in Hlt as [Hf Hs]. rewrite Forall_forall in Hf, Hs.
    assert (Hl' : (r = Loop.RecvNext /\ Loop.fired l' = Loop.fired l
                   /\ Loop.sessions l' = Loop.sessions l ++ [Loop.iterations l])
                  \/ (r <> Loop.RecvNext /\ Loop.sessions l' = Loop.sessions l
                      /\ Loop.fired l' = Loop.fired l ++ [Loop.iterations l])).
    { destruct r; cbn in Hbody; injection Hbody as <-; cbn;
        [left | right | right]; repeat split; discriminate. }
    destruct (IH l') as (Hdis' & Hlen & Hall).
    + rewrite Hn. apply Forall_app.
      destruct Hl' as [(_ & -> & ->) | (_ & -> & ->)];
        rewrite ?Forall_app, !Forall_forall; repeat split;
        intros x Hx; try (apply list_elem_of_singleton in Hx; subst x);
        try (specialize (Hf _ Hx)); try (specialize (Hs _ Hx)); lia.
    + intros x Hx Hx'.
      destruct Hl' as [(_ & Hfl & Hsl) | (_ & Hsl & Hfl)];
        rewrite Hfl in Hx'; rewrite Hsl in Hx.
      * apply elem_of_app in Hx as [Hx | Hx]; [exact (Hdis x Hx Hx') |].
        apply list_elem_of_singleton in Hx. subst x.
        specialize (Hf _ Hx'). lia.
      * apply elem_of_app in Hx' as [Hx' | Hx']; [exact (Hdis x Hx Hx') |].
        apply list_elem_of_singleton in Hx'. subst x.
        specialize (Hs _ Hx). lia.
    + split; [exact Hdis' |]. split; [rewrite Hlen | rewrite Hall];
        destruct Hl' as [(Hr & Hfl & Hsl) | (Hr & Hsl & Hfl)];
        rewrite ?Hfl, ?Hsl, ?length_app; cbn [length List.filter];
        destruct r; try congruence; cbn; lia.
Qed.

(** X16: the loop never cancels a decode session.  Every iteration makes
    its own context: the one that receives [next] gives it to the session
    it starts, the one that receives [cancel] or [quit] fires it.  So after
    any receipts there is one session for every [next] received, and no
    context given to a session is among those the loop has fired. *)
Theorem loop_cancels_no_session (rs : list Loop.Received) :
  let after := fst (Loop.DecodeStream rs Loop.init) in
  (forall ctx, ctx ∈ Loop.sessions after -> ctx ∉ Loop.fired after)
  /\ length (Loop.sessions after) = length (List.filter is_next rs)
  /\ (length (Loop.fired after) + length (Loop.sessions after))%nat = length rs.
Proof.
  destruct (DecodeStream_contexts rs Loop.init) as (Hdis & Hlen & Hall).
  - constructor.
  - intros c Hc. cbn in Hc. inversion Hc.
  - cbv zeta. split; [exact Hdis |]. split; [exact Hlen | exact Hall].
Qed.

(** ** The handler *)

Section HandlerProperties.

Context {P : Type} `{Player P}.

Variable Track : Type.
Variable AbsPath : Track -> string.
Variable db : Z -> option Track.

Implicit Types (j : Jukebox P) (params : Handler.Params Go.float64).

Local Abbreviation ServeJukebox := (Handler.ServeJukebox Track AbsPath db).
Local Abbreviation createPlaylistItems := (Handler.createPlaylistItems Track AbsPath db).
Local Abbreviation getStatusTracks := (Handler.getStatusTracks Track db).
Local Abbreviation status_response := (Handler.status_response Track).

Lemma same_engine_refl j : same_engine j j.
Proof. repeat split. Qed.

Lemma GetStatus_run j : GetStatus j = (eval GetStatus j, j).
Proof.
  unfold eval, GetStatus, read, bind, get, ret.
  destruct (negb _); reflexivity.
Qed.

Lemma status_response_run j :
  status_response j = (Handler.RespStatus (eval GetStatus j), j).
Proof.
  unfold Handler.status_response, Handler.getStatus, bind.
  rewrite GetStatus_run. reflexivity.
Qed.

Lemma bind_status {A : Type} (m : M P A) j :
  bind m (fun _ => status_response) j
  = (Handler.RespStatus (eval GetStatus (exec m j)), exec m j).
Proof.
  unfold bind, exec. destruct (m j) as [a j']. apply status_response_run.
Qed.

Lemma bind_run {A B : Type} (m : M P A) (k : A -> M P B) j :
  bind m k j = k (fst (m j)) (snd (m j)).
Proof. unfold bind. destruct (m j); reflexivity. Qed.

Lemma getStatusTracks_run j :
  getStatusTracks j = (mapM (fun p : ptr => db (ID (deref j p))) (j_items j), j).
Proof. reflexivity. Qed.

(** The items built so far are garbage when a lookup fails: the engine has
    not seen them. *)
Lemma createPlaylistItems_engine (ids : list Handler.specID) (items : list ptr) j :
  same_engine j (snd (createPlaylistItems ids items j))
  /\ j_mem j `prefix_of` j_mem (snd (createPlaylistItems ids items j)).
Proof.
  revert items j. induction ids as [| id ids IH]; intros items j; cbn.
  - split; [apply same_engine_refl | reflexivity].
  - destruct (db (Handler.Value id)) as [track |]; cbn;
      [| split; [apply same_engine_refl | reflexivity]].
    match goal with
    | |- context [createPlaylistItems ids ?its ?j1] =>
        destruct (IH its j1) as [Hsame Hpre]
    end.
    split.
    + destruct Hsame as (H1 & H2 & H3 & H4 & H5). repeat split; assumption.
    + etransitivity; [| exact Hpre]. cbn. apply prefix_app_r. reflexivity.
Qed.

(** When every id is in the table, one item is allocated per id, in order. *)
Lemma createPlaylistItems_found (ids : list Handler.specID) (tracks : list Track)
    (items : list ptr) j :
  Forall2 (fun id t => db (Handler.Value id) = Some t) ids tracks ->
  createPlaylistItems ids items j
  = (Some (items ++ seq (length (j_mem j)) (length ids)),
     set_mem (j_mem j
              ++ zip_with (fun id t => NewPlaylistItem (Handler.Value id) (AbsPath t))
                   ids tracks) j).
Proof.
  intros Hall. revert items j.
  induction Hall as [| id t ids tracks Hdb _ IH]; intros items j.
  - cbn. rewrite !app_nil_r. destruct j; reflexivity.
  - cbn [Handler.createPlaylistItems]. rewrite Hdb. unfold bind at 1. cbn.
    rewrite IH. cbn. rewrite length_app. cbn [length].
    rewrite Nat.add_1_r, <- !app_assoc. reflexivity.
Qed.

Lemma lookup_total_seq_app {A : Type} `{Inhabited A} (mem l : list A) :
  (fun p : nat => (mem ++ l) !!! p) <$> seq (length mem) (length l) = l.
Proof.
  revert mem. induction l as [| x l IH]; intros mem; [reflexivity |].
  cbn [length seq fmap list_fmap]. f_equal.
  - apply list_lookup_total_middle. reflexivity.
  - specialize (IH (mem ++ [x])). rewrite length_app in IH. cbn [length] in IH.
    rewrite Nat.add_1_r, <- app_assoc in IH. exact IH.
Qed.

(** X17: a request answered by an error has changed nothing.  Whenever
    [ServeJukebox] returns an error its code is 10, and cursor, playlist,
    player, pipe and channels of the engine are as before the request; the
    items there were are untouched (a [set] or [add] that fails on a later
    id leaves behind the items it had built, which the engine never saw). *)
Theorem handler_error_changes_nothing params j (code : Z) (msg : string) :
  eval (ServeJukebox params) j = Handler.RespError code msg ->
  let j' := exec (ServeJukebox params) j in
  code = 10 /\ same_engine j j' /\ j_mem j `prefix_of` j_mem j'.
Proof.
  unfold eval, exec, Handler.ServeJukebox. cbv zeta.
  repeat match goal with
         | |- context [String.eqb ?a ?b] => destruct (String.eqb a b)
         end;
    repeat match goal with
           | |- context [match ?o with Some _ => _ | None => _ end] =>
               is_var o; fail 1
           | |- context [Handler.idList ?p] => destruct (Handler.idList p)
           | |- context [Handler.index ?p] => destruct (Handler.index p)
           | |- context [Handler.gain ?p] => destruct (Handler.gain p)
           end;
    rewrite ?bind_status, ?status_response_run; cbn [fst snd ret];
    try discriminate;
    try (intros [= <- _]; repeat split; reflexivity).
  - rewrite !bind_run.
    pose proof (createPlaylistItems_engine l [] j) as Heng.
    destruct (createPlaylistItems l [] j) as [[items |] j1]; cbn [fst snd] in *.
    + rewrite bind_status. discriminate.
    + intros [= <- _]. split; [reflexivity | exact Heng].
  - rewrite !bind_run.
    pose proof (createPlaylistItems_engine l [] j) as Heng.
    destruct (createPlaylistItems l [] j) as [[items |] j1]; cbn [fst snd] in *.
    + rewrite bind_status. discriminate.
    + intros [= <- _]. split; [reflexivity | exact Heng].
  - rewrite !bind_run, getStatusTracks_run. cbn [fst snd].
    destruct (mapM _ _) as [tracks |].
    + rewrite !bind_run. unfold Handler.getStatus. rewrite GetStatus_run.
      discriminate.
    + intros [= <- _]. repeat split; reflexivity.
Qed.

Lemma new_items_facts (ids : list Handler.specID) (tracks : list Track) :
  Forall2 (fun id t => db (Handler.Value id) = Some t) ids tracks ->
  let news := zip_with (fun id t => NewPlaylistItem (Handler.Value id) (AbsPath t))
                ids tracks in
  length news = length ids
  /\ ID <$> news = Handler.Value <$> ids
  /\ Path <$> news = AbsPath <$> tracks
  /\ Forall (fun it => item_seek it = 0) news
  /\ Forall2 (fun it t => db (ID it) = Some t) news tracks.
Proof.
  induction 1 as [| id t ids tracks Hdb _ IH]; cbn.
  - repeat split; constructor.
  - destruct IH as (Hlen & Hids & Hpaths & Hseek & Hfound).
    rewrite Hlen, Hids, Hpaths. repeat split; constructor; assumption || reflexivity.
Qed.

(** X18: [set] then [get] gives back the tracks asked for.  When every id
    of a [set] request is in the table, the request makes the playlist one
    new item per id, in the order of the request, each with the id, the
    path of its track and seek 0, sends [next] and leaves the cursor where
    it was; a [get] right after answers with those tracks in that order and
    changes nothing. *)
Theorem handler_set_then_get (setp getp : Handler.Params Go.float64)
    (ids : list Handler.specID) (tracks : list Track) j :
  Handler.action setp = "set"%string ->
  Handler.idList setp = Some ids ->
  Handler.action getp = "get"%string ->
  Forall2 (fun id t => db (Handler.Value id) = Some t) ids tracks ->
  let j1 := exec (ServeJukebox setp) j in
  eval (ServeJukebox setp) j = Handler.RespStatus (eval GetStatus j1)
  /\ (fun p : ptr => ID (deref j1 p)) <$> j_items j1 = Handler.Value <$> ids
  /\ (fun p : ptr => Path (deref j1 p)) <$> j_items j1 = AbsPath <$> tracks
  /\ Forall (fun p : ptr => item_seek (deref j1 p) = 0) (j_items j1)
  /\ j_sent j1 = j_sent j ++ [next]
  /\ j_i j1 = j_i j
  /\ eval (ServeJukebox getp) j1 = Handler.RespPlaylist (eval GetStatus j1) tracks
  /\ exec (ServeJukebox getp) j1 = j1.
Proof.
  intros Hset Hids Hget Hall.
  destruct (new_items_facts ids tracks Hall) as (Hlen & Hid & Hpath & Hseek & Hfound).
  set (news := zip_with _ ids tracks) in *.
  assert (Hrun : ServeJukebox setp j
                 = (Handler.RespStatus
                      (eval GetStatus
                         (exec (SetItems (seq (length (j_mem j)) (length ids)))
                            (set_mem (j_mem j ++ news) j))),
                    exec (SetItems (seq (length (j_mem j)) (length ids)))
                      (set_mem (j_mem j ++ news) j))).
  { unfold Handler.ServeJukebox. cbv zeta. rewrite Hset, Hids. cbn [String.eqb Ascii.eqb Bool.eqb].
    rewrite bind_run, (createPlaylistItems_found ids tracks [] j Hall).
    cbn [fst snd]. apply bind_status. }
  cbv zeta. unfold eval at 1.
  replace (exec (ServeJukebox setp) j) with (snd (ServeJukebox setp j)) by reflexivity.
  rewrite Hrun. cbn [fst snd].
  set (j1 := exec (SetItems _) _).
  assert (Hitems : j_items j1 = seq (length (j_mem j)) (length news))
    by (rewrite Hlen; reflexivity).
  assert (Hmem : j_mem j1 = j_mem j ++ news) by reflexivity.
  assert (Hderef : deref j1 <$> j_items j1 = news).
  { rewrite Hitems. unfold deref. rewrite Hmem. apply lookup_total_seq_app. }
  assert (Hget_run : ServeJukebox getp j1
                     = (Handler.RespPlaylist (eval GetStatus j1) tracks, j1)).
  { unfold Handler.ServeJukebox. cbv zeta. rewrite Hget.
    cbn [String.eqb Ascii.eqb Bool.eqb].
    rewrite bind_run, getStatusTracks_run. cbn [fst snd].
    rewrite (mapM_Some_2 _ (j_items j1) tracks).
    - rewrite bind_run. unfold Handler.getStatus. rewrite GetStatus_run. reflexivity.
    - apply (Forall2_fmap_l (deref j1) (fun it t => db (ID it) = Some t)).
      rewrite Hderef. exact Hfound. }
  split; [reflexivity |].
  split; [rewrite <- Hid, <- Hderef, <- list_fmap_compose; reflexivity |].
  split; [rewrite <- Hpath, <- Hderef, <- list_fmap_compose; reflexivity |].
  split.
  { rewrite <- Hderef in Hseek. apply Forall_fmap in Hseek. exact Hseek. }
  split; [reflexivity |]. split; [reflexivity |].
  unfold eval, exec. rewrite Hget_run. split; reflexivity.
Qed.

(** X19: [get] and unknown actions are read-only.  A request whose action
    is none of [set], [add], [clear], [remove], [stop], [start], [skip] and
    [setGain] leaves the engine and the items exactly as they were; unless
    the action is [get], the answer is the current status. *)
Theorem handler_reads_leave_engine params j :
  ~ In (Handler.action params)
      ["set"; "add"; "clear"; "remove"; "stop"; "start"; "skip"; "setGain"]%string ->
  exec (ServeJukebox params) j = j
  /\ (Handler.action params <> "get"%string ->
      eval (ServeJukebox params) j = Handler.RespStatus (eval GetStatus j)).
Proof.
  intros Hnot. unfold eval, exec, Handler.ServeJukebox. cbv zeta.
  repeat match goal with
         | |- context [String.eqb ?a ?b] =>
             let E := fresh "E" in
             destruct (String.eqb a b) eqn:E;
             [apply String.eqb_eq in E;
              try (exfalso; apply Hnot; rewrite E; cbn; tauto) |]
         end.
  - rewrite bind_run, getStatusTracks_run. cbn [fst snd].
    split; [| congruence].
    destruct (mapM _ _); [| reflexivity].
    rewrite bind_run. unfold Handler.getStatus. rewrite GetStatus_run. reflexivity.
  - rewrite status_response_run. split; reflexivity.
Qed.

End HandlerProperties.

(** ** The further theorems at concrete states *)

Lemma read_1s_reachable :
  reachable (fun offsetSecs => -9223372036 <= offsetSecs <= 9223372036)
    newMock read_1s.
Proof.
  apply (reachable_run _ newMock _ (New newMock)); [constructor |].
  calls_ok_tac.
Qed.

Lemma sessions_play_to_the_end_witness :
  let failing : Transcoder := fun _ _ _ => Some (ErrTranscode "exit status 1"%string) in
  let j' := run (sessions_run [(failing, 0%nat); (failing, 1%nat)]) one_item in
  j_items j' = [] /\ j_i j' = 0 /\ CountReader.Count (j_pcmr j') = 0
  /\ j_player j' = Reset (j_player one_item)
  /\ j_sent j' = j_sent one_item ++ replicate 1 next.
Proof.
  apply (sessions_play_to_the_end
           [(fun _ _ _ => Some (ErrTranscode "exit status 1"%string), 0%nat);
            (fun _ _ _ => Some (ErrTranscode "exit status 1"%string), 1%nat)]
           one_item).
  - change (0 <= 0 <= 1). lia.
  - change (1 < 2 ^ 63). lia.
  - reflexivity.
Defined.

Lemma Skip_then_GetStatus_witness :
  eval GetStatus (exec (Skip 0 2) read_1s)
  = mkStatus 0 true (Go.float64_of_int 1) ((192000 - 0) / 192000 + 2).
Proof.
  apply (Skip_then_GetStatus _ newMock read_1s 0 2 read_1s_reachable).
  - reflexivity.
  - lia.
  - change (0 <= 0 <= 192000). lia.
Defined.

Lemma position_monotone_in_reads_witness :
  Position (eval GetStatus read_1s)
  <= Position (eval GetStatus (exec (PlayerRead 100000) read_1s)).
Proof.
  apply (position_monotone_in_reads newMock read_1s 100000 read_1s_reachable).
  - reflexivity.
  - lia.
  - change (192000 + 100000 < 2 ^ 64). lia.
  - change (0 <= 0 <= 192000). lia.
  - change (0 <= 0 <= 0 + 100000). lia.
Defined.

Lemma read_seconds_advance_position_witness :
  Position (eval GetStatus (exec (PlayerRead (secsToBytes 5)) read_1s))
  = Position (eval GetStatus read_1s) + 5.
Proof.
  apply (read_seconds_advance_position newMock read_1s 5 read_1s_reachable).
  - reflexivity.
  - lia.
  - change (192000 + 192000 * 5 < 2 ^ 63). lia.
  - change (0 <= 0 <= 192000). lia.
  - reflexivity.
Defined.

Lemma ReadN_reads_exactly_witness :
  let j' := exec (ReadN (S (Z.to_nat 25000)) deliver_10000 25000) read_1s in
  eval (ReadN (S (Z.to_nat 25000)) deliver_10000 25000) read_1s = Some tt
  /\ CountReader.Count (j_pcmr j')
     = Go.uint64 (CountReader.Count (j_pcmr read_1s) + 25000)
  /\ j_player j' = j_player read_1s /\ j_i j' = j_i read_1s
  /\ j_items j' = j_items read_1s /\ j_sent j' = j_sent read_1s
  /\ j_mem j' = j_mem read_1s.
Proof.
  apply (ReadN_reads_exactly deliver_10000 25000 (S (Z.to_nat 25000)) read_1s).
  - intros k req Hreq. unfold deliver_10000. lia.
  - unfold Go.two63. lia.
  - lia.
  - change (0 <= 192000 < 2 ^ 64). lia.
Defined.

Lemma items_change_only_by_Skip_witness :
  exists it', j_mem (run [CallSkip 0 7; CallClearItems] one_item) !! 0%nat = Some it'
              /\ ID it' = 0 /\ Path it' = "a"%string
              /\ (Forall (fun c => forall i offsetSecs, c <> CallSkip i offsetSecs)
                    [CallSkip 0 7; CallClearItems] ->
                  it' = NewPlaylistItem 0 "a").
Proof.
  exact (items_change_only_by_Skip [CallSkip 0 7; CallClearItems] one_item 0%nat
           (NewPlaylistItem 0 "a") eq_refl).
Defined.

Lemma RemoveItem_undoes_AppendItems_witness :
  j_items (exec (RemoveItem 0) one_item) = [] ++ [].
Proof.
  destruct (RemoveItem_undoes_AppendItems one_item 0%nat) as [_ Hsplit].
  exact (Hsplit [] [] 0%nat eq_refl).
Defined.

Lemma handler_error_changes_nothing_witness :
  let params := Handler.mkParams Go.float64 "skip" None None 3 None in
  let j' := exec (Handler.ServeJukebox string (fun t => t) two_tracks params) one_item in
  10 = 10 /\ same_engine one_item j' /\ j_mem one_item `prefix_of` j_mem j'.
Proof.
  apply (handler_error_changes_nothing string (fun t => t) two_tracks
           (Handler.mkParams Go.float64 "skip" None None 3 None) one_item 10
           "please provide an index for skip actions").
  reflexivity.
Defined.

Lemma handler_set_then_get_witness :
  let setp := Handler.mkParams Go.float64 "set"
                (Some [Handler.mkID 2; Handler.mkID 1]) None 0 None in
  let getp := Handler.mkParams Go.float64 "get" None None 0 None in
  let j1 := exec (Handler.ServeJukebox string (fun t => t) two_tracks setp) one_item in
  (fun p : ptr => ID (deref j1 p)) <$> j_items j1 = [2; 1]
  /\ eval (Handler.ServeJukebox string (fun t => t) two_tracks getp) j1
     = Handler.RespPlaylist (eval GetStatus j1)
         ["/music/two.mp3"; "/music/one.mp3"]%string.
Proof.
  destruct (handler_set_then_get string (fun t => t) two_tracks
              (Handler.mkParams Go.float64 "set"
                 (Some [Handler.mkID 2; Handler.mkID 1]) None 0 None)
              (Handler.mkParams Go.float64 "get" None None 0 None)
              [Handler.mkID 2; Handler.mkID 1]
              ["/music/two.mp3"; "/music/one.mp3"]%string one_item)
    as (_ & Hids & _ & _ & _ & _ & Hget & _).
  - reflexivity.
  - reflexivity.
  - reflexivity.
  - repeat constructor.
  - split; [exact Hids | exact Hget].
Defined.

Lemma handler_reads_leave_engine_witness :
  let params := Handler.mkParams Go.float64 "shuffle" None None 0 None in
  exec (Handler.ServeJukebox string (fun t => t) two_tracks params) one_item = one_item
  /\ eval (Handler.ServeJukebox string (fun t => t) two_tracks params) one_item
     = Handler.RespStatus (eval GetStatus one_item).
Proof.
  destruct (handler_reads_leave_engine string (fun t => t) two_tracks
              (Handler.mkParams Go.float64 "shuffle" None None 0 None) one_item)
    as [Hexec Heval].
  - cbn. intros Hin. repeat destruct Hin as [Hin | Hin]; try discriminate. exact Hin.
  - split; [exact Hexec | apply Heval; discriminate].
Defined.

(** X3: [SetItems] keeps the cursor.  With the cursor at [i >= 0],
    [Current()] right after [SetItems(items)] returns the item of the new
    list at [i] when the new list has one, and the out-of-bounds error when
    it is shorter; in that case the decode session that the [next] of
    [SetItems] starts empties the new list. *)
Theorem SetItems_then_Current_at_cursor {P : Type} `{Player P}
    (j : Jukebox P) (items : list ptr) :
  0 <= j_i j ->
  let j' := exec (SetItems items) j in
  j_i j' = j_i j
  /\ eval Current j'
     = match items !! Z.to_nat (j_i j) with
       | Some p => (Some p, None)
       | None => (None, Some ErrOOB)
       end
  /\ (items !! Z.to_nat (j_i j) = None ->
      forall (transcoder : Transcoder) (ctx : nat),
        j_items (exec (decode transcoder ctx) j') = []).
Proof.
  intros Hi. cbv zeta. rewrite SetItems_exec.
  set (j' := set_sent _ _).
  assert (Hcases : (inbounds (len (j_items j')) (j_i j') = true
                    /\ exists p, items !! Z.to_nat (j_i j) = Some p)
                   \/ (inbounds (len (j_items j')) (j_i j') = false
                       /\ items !! Z.to_nat (j_i j) = None)).
  { change (j_items j') with items. change (j_i j') with (j_i j).
    destruct (inbounds (len items) (j_i j)) eqn:Hin.
    - left. split; [reflexivity | exact (inbounds_lookup items (j_i j) Hin)].
    - right. split; [reflexivity |]. apply lookup_ge_None.
      destruct (Nat.le_gt_cases (length items) (Z.to_nat (j_i j))) as [Hle | Hgt];
        [exact Hle | exfalso].
      assert (inbounds (len items) (j_i j) = true); [| congruence].
      apply inbounds_spec. unfold len. lia. }
  split; [reflexivity |].
  destruct Hcases as [[Hin [p Hp]] | [Hin Hnone]].
  - rewrite (Current_inbounds j' Hin). change (j_items j') with items.
    change (j_i j') with (j_i j). rewrite Hp. split; [reflexivity | discriminate].
  - rewrite (Current_oob j' Hin), Hnone. split; [reflexivity |].
    intros _ transcoder ctx. rewrite (decode_exec_oob transcoder ctx j' Hin).
    reflexivity.
Qed.

Lemma SetItems_then_Current_at_cursor_witness :
  let j := exec (Skip 1 0) (exec (SetItems [0; 0]%nat) one_item) in
  eval Current (exec (SetItems [5; 7]%nat) j) = (Some 7%nat, None)
  /\ j_items (exec (decode (fun _ _ _ => None) 0%nat) (exec (SetItems [5%nat]) j)) = [].
Proof.
  split.
  - destruct (SetItems_then_Current_at_cursor
                (exec (Skip 1 0) (exec (SetItems [0; 0]%nat) one_item)) [5; 7]%nat)
      as (_ & Hcur & _); [change (0 <= 1); lia | exact Hcur].
  - destruct (SetItems_then_Current_at_cursor
                (exec (Skip 1 0) (exec (SetItems [0; 0]%nat) one_item)) [5%nat])
      as (_ & _ & Hclear); [change (0 <= 1); lia |].
    exact (Hclear eq_refl (fun _ _ _ => None) 0%nat).
Defined.
